(** * InputController: pointer, wheel and decay handlers

    A shallow embedding of [src/components/InputController.tsx].

    Conventions of the embedding.
    - A JavaScript [number] holding a coordinate, an offset or a timestamp is a
      real number ([R]); rounding, overflow and NaN of IEEE doubles are outside
      the model.  Pointer identifiers and the [buttons] bit mask are integers
      ([Z]).
    - [useRef] cells and the values kept by the [TreeContext] setters are the
      fields of one record, [State]; a handler is a function from [State] to
      [State] and runs to completion, as an event callback does.
    - A setter called with an updater function ([setRotationBoost (prev => ...)])
      applies the function to the value stored at that moment.
    - [window.innerWidth], [window.innerHeight] are read when a handler runs:
      every handler receives them in a [Window] record.  [Date.now ()] is
      carried by the click event. *)

From Stdlib Require Import Reals Lra Lia ZArith List Bool String Arith.
Import ListNotations.

Local Open Scope R_scope.

(** ** Plain data *)

(** [{ x: number; y: number }] *)
Module Pt.
Record t : Type := mk { x : R; y : R }.
End Pt.

(** [{ id: number; x: number; y: number }] *)
Module Primary.
Record t : Type := mk { id : Z; x : R; y : R }.
End Primary.

(** The fields of a [PointerEvent] the handlers read. *)
Module PointerEvent.
Record t : Type := mk {
  pointerId : Z;
  clientX : R;
  clientY : R;
  buttons : Z;
  pointerType : string;
  movementX : R
}.
End PointerEvent.

(** The fields of a [WheelEvent] the handler reads. *)
Module WheelEvent.
Record t : Type := mk { clientX : R; clientY : R; deltaY : R }.
End WheelEvent.

(** The fields of a [MouseEvent] the click handler reads. *)
Module MouseEvent.
Record t : Type := mk { clientX : R; clientY : R }.
End MouseEvent.

(** The part of [window] the handlers read. *)
Record Window : Type := mkWindow { innerWidth : R; innerHeight : R }.

(** Modelled from the spec: the type of the tree state, declared in
    [../types], which is not part of the sources at hand.  The spec names two
    variants; the handler compares with ['CHAOS'] and produces ['FORMED'] or
    ['CHAOS']. *)
Inductive TreeState : Type := CHAOS | FORMED.

(** [===] on two values of this type. *)
Definition TreeState_eqb (a b : TreeState) : bool :=
  match a, b with
  | CHAOS, CHAOS | FORMED, FORMED => true
  | _, _ => false
  end.

(** ** [Map<number, V>]: an insertion-ordered map

    Iteration order is insertion order; [set] on a key already present keeps
    the key at its place. *)

Section JsMap.
Context {V : Type}.

Definition JsMap : Type := list (Z * V).

Fixpoint Map_has (k : Z) (m : JsMap) : bool :=
  match m with
  | [] => false
  | (k', _) :: rest => if (k' =? k)%Z then true else Map_has k rest
  end.

Fixpoint Map_set (k : Z) (v : V) (m : JsMap) : JsMap :=
  match m with
  | [] => [(k, v)]
  | (k', v') :: rest =>
      if (k' =? k)%Z then (k, v) :: rest else (k', v') :: Map_set k v rest
  end.

Fixpoint Map_delete (k : Z) (m : JsMap) : JsMap :=
  match m with
  | [] => []
  | (k', v') :: rest =>
      if (k' =? k)%Z then rest else (k', v') :: Map_delete k rest
  end.

Definition Map_size (m : JsMap) : nat := List.length m.

Definition Map_values (m : JsMap) : list V := map snd m.

Definition Map_entries (m : JsMap) : list (Z * V) := m.

(** Keys are pairwise distinct: what a [Map] guarantees by construction. *)
Definition Map_wf (m : JsMap) : Prop := NoDup (map fst m).
End JsMap.

Arguments JsMap V : clear implicits.

(** ** [Math] *)

Definition Math_max (a b : R) : R := Rmax a b.
Definition Math_min (a b : R) : R := Rmin a b.
Definition Math_abs (a : R) : R := Rabs a.
Definition Math_hypot (a b : R) : R := sqrt (a * a + b * b).

(** [const clamp = (value, min, max) => Math.min(Math.max(value, min), max)] *)
Definition clamp (value min max : R) : R := Math_min (Math_max value min) max.

(** ** The state the component reads and writes *)

Record State : Type := mkState {
  (* useRef cells of the component *)
  pointers : JsMap Pt.t;
  lastCentroid : option Pt.t;
  lastDistance : option R;
  lastPrimary : option Primary.t;
  (* values held by the TreeContext setters *)
  pointer : option Pt.t;
  hoverProgress : R;
  clickTrigger : R;
  panOffset : Pt.t;
  rotationBoost : R;
  zoomOffset : R;
  state : TreeState
}.

(** Assignments to the [current] field of a ref. *)

Definition set_pointers (v : JsMap Pt.t) (s : State) : State :=
  mkState v (lastCentroid s) (lastDistance s) (lastPrimary s) (pointer s)
    (hoverProgress s) (clickTrigger s) (panOffset s) (rotationBoost s)
    (zoomOffset s) (state s).

Definition set_lastCentroid (v : option Pt.t) (s : State) : State :=
  mkState (pointers s) v (lastDistance s) (lastPrimary s) (pointer s)
    (hoverProgress s) (clickTrigger s) (panOffset s) (rotationBoost s)
    (zoomOffset s) (state s).

Definition set_lastDistance (v : option R) (s : State) : State :=
  mkState (pointers s) (lastCentroid s) v (lastPrimary s) (pointer s)
    (hoverProgress s) (clickTrigger s) (panOffset s) (rotationBoost s)
    (zoomOffset s) (state s).

Definition set_lastPrimary (v : option Primary.t) (s : State) : State :=
  mkState (pointers s) (lastCentroid s) (lastDistance s) v (pointer s)
    (hoverProgress s) (clickTrigger s) (panOffset s) (rotationBoost s)
    (zoomOffset s) (state s).

(** The setters of [TreeContext]; the last four are called with an updater. *)

Definition setPointer (v : option Pt.t) (s : State) : State :=
  mkState (pointers s) (lastCentroid s) (lastDistance s) (lastPrimary s) v
    (hoverProgress s) (clickTrigger s) (panOffset s) (rotationBoost s)
    (zoomOffset s) (state s).

Definition setHoverProgress (v : R) (s : State) : State :=
  mkState (pointers s) (lastCentroid s) (lastDistance s) (lastPrimary s)
    (pointer s) v (clickTrigger s) (panOffset s) (rotationBoost s)
    (zoomOffset s) (state s).

Definition setClickTrigger (v : R) (s : State) : State :=
  mkState (pointers s) (lastCentroid s) (lastDistance s) (lastPrimary s)
    (pointer s) (hoverProgress s) v (panOffset s) (rotationBoost s)
    (zoomOffset s) (state s).

Definition setPanOffset (f : Pt.t -> Pt.t) (s : State) : State :=
  mkState (pointers s) (lastCentroid s) (lastDistance s) (lastPrimary s)
    (pointer s) (hoverProgress s) (clickTrigger s) (f (panOffset s))
    (rotationBoost s) (zoomOffset s) (state s).

Definition setRotationBoost (f : R -> R) (s : State) : State :=
  mkState (pointers s) (lastCentroid s) (lastDistance s) (lastPrimary s)
    (pointer s) (hoverProgress s) (clickTrigger s) (panOffset s)
    (f (rotationBoost s)) (zoomOffset s) (state s).

Definition setZoomOffset (f : R -> R) (s : State) : State :=
  mkState (pointers s) (lastCentroid s) (lastDistance s) (lastPrimary s)
    (pointer s) (hoverProgress s) (clickTrigger s) (panOffset s)
    (rotationBoost s) (f (zoomOffset s)) (state s).

Definition setState (f : TreeState -> TreeState) (s : State) : State :=
  mkState (pointers s) (lastCentroid s) (lastDistance s) (lastPrimary s)
    (pointer s) (hoverProgress s) (clickTrigger s) (panOffset s)
    (rotationBoost s) (zoomOffset s) (f (state s)).

(** ** The handlers *)

(** [const normalize = (x, y) => ({ x: x / window.innerWidth, y: y / window.innerHeight })] *)
Definition normalize (window : Window) (x y : R) : Pt.t :=
  Pt.mk (x / innerWidth window) (y / innerHeight window).

(** [pts[i]] for an index the surrounding size test puts in range (an index out
    of range would make the property access throw). *)
Definition item (pts : list Pt.t) (i : nat) : Pt.t := nth i pts (Pt.mk 0 0).

(** [pts.reduce((sum, p) => sum + p.x, 0)] and its [y] twin. *)
Definition sum_x (pts : list Pt.t) : R := fold_left (fun sum p => sum + Pt.x p) pts 0.
Definition sum_y (pts : list Pt.t) : R := fold_left (fun sum p => sum + Pt.y p) pts 0.

Definition handlePointerDown (window : Window) (event : PointerEvent.t) (s : State) : State :=
  let s := set_pointers
             (Map_set (PointerEvent.pointerId event)
                (Pt.mk (PointerEvent.clientX event) (PointerEvent.clientY event))
                (pointers s)) s in
  let s := set_lastPrimary
             (Some (Primary.mk (PointerEvent.pointerId event)
                      (PointerEvent.clientX event) (PointerEvent.clientY event))) s in
  let s := setPointer
             (Some (normalize window (PointerEvent.clientX event) (PointerEvent.clientY event))) s in
  if (Map_size (pointers s) =? 2)%nat then
    let pts := Map_values (pointers s) in
    let s := set_lastCentroid
               (Some (Pt.mk ((Pt.x (item pts 0) + Pt.x (item pts 1)) / 2)
                            ((Pt.y (item pts 0) + Pt.y (item pts 1)) / 2))) s in
    set_lastDistance
      (Some (Math_hypot (Pt.x (item pts 0) - Pt.x (item pts 1))
                        (Pt.y (item pts 0) - Pt.y (item pts 1)))) s
  else s.

(** [event.buttons !== 0 || event.pointerType === 'touch'] *)
Definition isDragging (event : PointerEvent.t) : bool :=
  negb (PointerEvent.buttons event =? 0)%Z
  || (PointerEvent.pointerType event =? "touch")%string.

Definition handlePointerMove (window : Window) (event : PointerEvent.t) (s : State) : State :=
  if negb (Map_has (PointerEvent.pointerId event) (pointers s)) then s else
  let currentPoint := Pt.mk (PointerEvent.clientX event) (PointerEvent.clientY event) in
  let s := set_pointers (Map_set (PointerEvent.pointerId event) currentPoint (pointers s)) s in
  let s := setPointer
             (Some (normalize window (PointerEvent.clientX event) (PointerEvent.clientY event))) s in
  if (Map_size (pointers s) =? 1)%nat && isDragging event then
    let prev := lastPrimary s in
    let dx := match prev with
              | Some prev => PointerEvent.clientX event - Primary.x prev
              | None => PointerEvent.movementX event
              end in
    let s := set_lastPrimary
               (Some (Primary.mk (PointerEvent.pointerId event)
                        (PointerEvent.clientX event) (PointerEvent.clientY event))) s in
    setRotationBoost (fun prevBoost => clamp (prevBoost - dx * 0.01) (-3) 3) s
  else if (2 <=? Map_size (pointers s))%nat then
    let pts := Map_values (pointers s) in
    let centroid := Pt.mk (sum_x pts / INR (List.length pts)) (sum_y pts / INR (List.length pts)) in
    let s := match lastCentroid s with
             | Some last =>
                 let deltaX := Pt.x centroid - Pt.x last in
                 let deltaY := Pt.y centroid - Pt.y last in
                 setPanOffset
                   (fun prev => Pt.mk (clamp (Pt.x prev + deltaX * 0.02) (-15) 15)
                                      (clamp (Pt.y prev - deltaY * 0.02) (-10) 10)) s
             | None => s
             end in
    let s := set_lastCentroid (Some centroid) s in
    let dist := Math_hypot (Pt.x (item pts 0) - Pt.x (item pts 1))
                           (Pt.y (item pts 0) - Pt.y (item pts 1)) in
    let s := match lastDistance s with
             | Some last =>
                 let delta := dist - last in
                 setZoomOffset (fun prev => clamp (prev - delta * 0.01) (-20) 40) s
             | None => s
             end in
    set_lastDistance (Some dist) s
  else
    let s := set_lastCentroid None s in
    set_lastDistance None s.

Definition handlePointerUp (window : Window) (event : PointerEvent.t) (s : State) : State :=
  let s := set_pointers (Map_delete (PointerEvent.pointerId event) (pointers s)) s in
  if (Map_size (pointers s) =? 0)%nat then
    let s := setPointer None s in
    let s := set_lastCentroid None s in
    let s := set_lastDistance None s in
    set_lastPrimary None s
  else
    match Map_entries (pointers s) with
    | (firstId, firstPoint) :: _ =>
        let s := setPointer (Some (normalize window (Pt.x firstPoint) (Pt.y firstPoint))) s in
        set_lastPrimary (Some (Primary.mk firstId (Pt.x firstPoint) (Pt.y firstPoint))) s
    | [] => s (* not reached: the size is not 0 *)
    end.

Definition handleWheel (window : Window) (event : WheelEvent.t) (s : State) : State :=
  let s := setPointer
             (Some (normalize window (WheelEvent.clientX event) (WheelEvent.clientY event))) s in
  setZoomOffset (fun prev => clamp (prev - WheelEvent.deltaY event * 0.002) (-20) 40) s.

(** [now] is the value of [Date.now ()] when the handler runs. *)
Definition handleClick (window : Window) (event : MouseEvent.t) (now : R) (s : State) : State :=
  let s := setPointer
             (Some (normalize window (MouseEvent.clientX event) (MouseEvent.clientY event))) s in
  let s := setClickTrigger now s in
  setHoverProgress 0 s.

(** [prev === 'CHAOS' ? 'FORMED' : 'CHAOS'] *)
Definition handleDoubleClick (s : State) : State :=
  setState (fun prev => if TreeState_eqb prev CHAOS then FORMED else CHAOS) s.

(** The updater of the decay interval:
    [(prev) => { if (Math.abs(prev) < 0.001) return 0; return prev * 0.94; }] *)
Definition decay_update (prev : R) : R :=
  if Rlt_dec (Math_abs prev) 0.001 then 0 else prev * 0.94.

(** One firing of [setInterval (..., 16)]. *)
Definition decay (s : State) : State := setRotationBoost decay_update s.

(** ** Event delivery *)

(** What the host delivers: the listeners registered on [window], and the
    timer.  [pointercancel] is bound to [handlePointerUp]. *)
Inductive Event : Type :=
| pointerdown (event : PointerEvent.t)
| pointermove (event : PointerEvent.t)
| pointerup (event : PointerEvent.t)
| pointercancel (event : PointerEvent.t)
| wheel (event : WheelEvent.t)
| click (event : MouseEvent.t) (now : R)
| dblclick
| interval.

Definition dispatch (window : Window) (e : Event) (s : State) : State :=
  match e with
  | pointerdown event => handlePointerDown window event s
  | pointermove event => handlePointerMove window event s
  | pointerup event => handlePointerUp window event s
  | pointercancel event => handlePointerUp window event s
  | wheel event => handleWheel window event s
  | click event now => handleClick window event now s
  | dblclick => handleDoubleClick s
  | interval => decay s
  end.

(** Handlers run one after the other, in delivery order; each event comes with
    the window dimensions at the time it is handled. *)
Definition run (events : list (Window * Event)) (s : State) : State :=
  fold_left (fun s we => dispatch (fst we) (snd we) s) events s.

(** The refs as [useRef] initialises them, over any stored context values. *)
Definition refs_initial (s : State) : Prop :=
  pointers s = [] /\ lastCentroid s = None /\ lastDistance s = None /\ lastPrimary s = None.

(** States the component can be in: those reached from initial refs. *)
Definition reachable (s : State) : Prop :=
  exists s0 events, refs_initial s0 /\ s = run events s0.

(** A state with initial refs and zeroed context values, for the examples. *)
Definition idle : State :=
  mkState [] None None None None 0 0 (Pt.mk 0 0) 0 0 FORMED.

Definition window0 : Window := mkWindow 800 600.

(** A mouse pointer event, with the given [buttons] mask. *)
Definition mouse (id : Z) (x y : R) (buttons : Z) : PointerEvent.t :=
  PointerEvent.mk id x y buttons "mouse" 0.

(** A touch pointer event. *)
Definition touch (id : Z) (x y : R) : PointerEvent.t :=
  PointerEvent.mk id x y 0 "touch" 0.

(** [event] with another [movementX]. *)
Definition with_movementX (mx : R) (event : PointerEvent.t) : PointerEvent.t :=
  PointerEvent.mk (PointerEvent.pointerId event) (PointerEvent.clientX event)
    (PointerEvent.clientY event) (PointerEvent.buttons event)
    (PointerEvent.pointerType event) mx.

(** The declared intervals of the accumulators. *)
Definition in_bounds (s : State) : Prop :=
  -3 <= rotationBoost s <= 3 /\
  -15 <= Pt.x (panOffset s) <= 15 /\
  -10 <= Pt.y (panOffset s) <= 10 /\
  -20 <= zoomOffset s <= 40.

(** [s] with other contents in the centroid and distance refs. *)
Definition with_multi_refs (c : option Pt.t) (d : option R) (s : State) : State :=
  set_lastDistance d (set_lastCentroid c s).

(** Two states that differ at most in the centroid and distance refs, and do
    not differ there as soon as two pointers are tracked. *)
Definition agree (s1 s2 : State) : Prop :=
  pointers s1 = pointers s2 /\
  lastPrimary s1 = lastPrimary s2 /\
  pointer s1 = pointer s2 /\
  hoverProgress s1 = hoverProgress s2 /\
  clickTrigger s1 = clickTrigger s2 /\
  panOffset s1 = panOffset s2 /\
  rotationBoost s1 = rotationBoost s2 /\
  zoomOffset s1 = zoomOffset s2 /\
  state s1 = state s2 /\
  ((2 <= Map_size (pointers s1))%nat ->
   lastCentroid s1 = lastCentroid s2 /\ lastDistance s1 = lastDistance s2).

(** While a pointer is tracked there is a single-pointer reference. *)
Definition has_primary (s : State) : Prop :=
  pointers s <> [] -> lastPrimary s <> None.

(** ** Quantities the multi-pointer branch computes *)

(** The centroid [handlePointerMove] computes from [pts]: the mean of all
    samples. *)
Definition centroid_of (pts : list Pt.t) : Pt.t :=
  Pt.mk (sum_x pts / INR (List.length pts)) (sum_y pts / INR (List.length pts)).

(** The distance both handlers compute from [pts]: between the first two
    samples. *)
Definition distance_of (pts : list Pt.t) : R :=
  Math_hypot (Pt.x (item pts 0) - Pt.x (item pts 1))
             (Pt.y (item pts 0) - Pt.y (item pts 1)).

(** The identifiers of the tracker, in iteration order. *)
Definition Map_keys {V : Type} (m : JsMap V) : list Z := map fst m.

(** The two multi-pointer references describe the samples now tracked. *)
Definition refs_current (s : State) : Prop :=
  lastCentroid s = Some (centroid_of (Map_values (pointers s)))
  /\ lastDistance s = Some (distance_of (Map_values (pointers s))).

(** Along [events], run from [s], the tracker never holds more than [n]
    pointers. *)
Fixpoint stays_within (n : nat) (events : list (Window * Event)) (s : State) : Prop :=
  (Map_size (pointers s) <= n)%nat /\
  match events with
  | [] => True
  | (window, e) :: rest => stays_within n rest (dispatch window e s)
  end.

(** The single-pointer reference names a tracked pointer, and a non-empty
    tracker comes with a reference and a pointer signal. *)
Definition tracking_consistent (s : State) : Prop :=
  (pointers s <> [] -> lastPrimary s <> None)
  /\ (forall prev, lastPrimary s = Some prev ->
      Map_has (Primary.id prev) (pointers s) = true)
  /\ (pointers s <> [] -> pointer s <> None).

(** Two states with the same tracker, references and accumulators; the
    pointer signal, hover progress, click time and tree state may differ. *)
Definition same_gesture (s1 s2 : State) : Prop :=
  pointers s1 = pointers s2 /\
  lastCentroid s1 = lastCentroid s2 /\
  lastDistance s1 = lastDistance s2 /\
  lastPrimary s1 = lastPrimary s2 /\
  panOffset s1 = panOffset s2 /\
  rotationBoost s1 = rotationBoost s2 /\
  zoomOffset s1 = zoomOffset s2.

(** Clicks and double clicks. *)
Definition is_click (e : Event) : bool :=
  match e with
  | click _ _ | dblclick => true
  | _ => false
  end.

(** ** Proof tactics *)

(** Case analysis on every test of the goal. *)
Ltac split_branches :=
  repeat match goal with
    | |- context [if ?c then _ else _] => destruct c eqn:?
    | |- context [match ?o with Some _ => _ | None => _ end] => destruct o eqn:?
    | |- context [match ?l with [] => _ | _ :: _ => _ end] => destruct l as [|[? ?] ?] eqn:?
    end.

(** Reads the fields of a state written by the setters. *)
Ltac project :=
  cbn [pointers lastCentroid lastDistance lastPrimary pointer hoverProgress
       clickTrigger panOffset rotationBoost zoomOffset state
       set_pointers set_lastCentroid set_lastDistance set_lastPrimary
       setPointer setHoverProgress setClickTrigger setPanOffset
       setRotationBoost setZoomOffset setState Pt.x Pt.y] in *.

(** Case analysis on the comparisons inside [clamp], innermost first. *)
Ltac innermost_comparison :=
  match goal with
  | |- context [Rle_dec ?a ?b] =>
      lazymatch a with
      | context [Rle_dec _ _] => fail
      | _ => destruct (Rle_dec a b)
      end
  end.

Ltac clamp_cases :=
  unfold clamp, Math_min, Math_max, Rmin, Rmax;
  repeat innermost_comparison; lra.

Ltac bounds :=
  unfold in_bounds in *; project;
  repeat match goal with
    | |- _ <= clamp _ _ _ <= _ => solve [clamp_cases]
    | |- _ /\ _ => split
    end; try tauto.

Ltac agree_fields :=
  unfold agree; project; repeat split; try reflexivity; try (intros; exfalso; lia).

(** Closes a goal that assumes a value changed when it did not. *)
Ltac unchanged :=
  let H := fresh in intros H; exfalso; apply H; reflexivity.

(** * Properties *)

(** ** [clamp] *)

Lemma clamp_range (value min max : R) :
  min <= max -> min <= clamp value min max <= max.
Proof.
  intros Hle. unfold clamp, Math_min, Math_max, Rmin, Rmax.
  destruct (Rle_dec value min); destruct (Rle_dec _ max); lra.
Qed.

Lemma clamp_inside (value min max : R) :
  min <= value <= max -> clamp value min max = value.
Proof.
  intros [Hlo Hhi]. unfold clamp, Math_min, Math_max, Rmin, Rmax.
  destruct (Rle_dec value min); destruct (Rle_dec _ max); lra.
Qed.

(** ** The tracker *)

Section JsMapFacts.
Context {V : Type}.
Implicit Types (m : JsMap V) (k : Z) (v : V).

Lemma Map_size_0 m : Map_size m = 0%nat -> m = [].
Proof. destruct m; [reflexivity | discriminate]. Qed.

Lemma Map_set_not_nil k v m : Map_set k v m <> [].
Proof.
  destruct m as [|[k' v'] rest]; simpl; [discriminate|].
  destruct (k' =? k)%Z; discriminate.
Qed.

Lemma Map_has_not_nil k m : Map_has k m = true -> m <> [].
Proof. destruct m; simpl; [discriminate | intros _; discriminate]. Qed.

Lemma Map_set_size_has k v m :
  Map_has k m = true -> Map_size (Map_set k v m) = Map_size m.
Proof.
  unfold Map_size. induction m as [|[k' v'] rest IH]; simpl; [discriminate|].
  destruct (k' =? k)%Z; simpl; [reflexivity|].
  intros H. now rewrite IH.
Qed.

Lemma Map_set_size_new k v m :
  Map_has k m = false -> Map_size (Map_set k v m) = S (Map_size m).
Proof.
  unfold Map_size. induction m as [|[k' v'] rest IH]; simpl; [reflexivity|].
  destruct (k' =? k)%Z; simpl; [discriminate|].
  intros H. now rewrite IH.
Qed.

Lemma Map_set_size_bounds k v m :
  (Map_size m <= Map_size (Map_set k v m) <= S (Map_size m))%nat.
Proof.
  destruct (Map_has k m) eqn:H.
  - rewrite (Map_set_size_has _ _ _ H). lia.
  - rewrite (Map_set_size_new _ _ _ H). lia.
Qed.

Lemma Map_delete_size_le k m : (Map_size (Map_delete k m) <= Map_size m)%nat.
Proof.
  unfold Map_size. induction m as [|[k' v'] rest IH]; simpl; [lia|].
  destruct (k' =? k)%Z; simpl; lia.
Qed.

Lemma Map_has_set k v m : Map_has k (Map_set k v m) = true.
Proof.
  induction m as [|[k' v'] rest IH]; simpl.
  - now rewrite Z.eqb_refl.
  - destruct (k' =? k)%Z eqn:E; simpl; [now rewrite Z.eqb_refl | now rewrite E].
Qed.

Lemma Map_keys_set k v m :
  map fst (Map_set k v m) =
  if Map_has k m then map fst m else (map fst m ++ [k])%list.
Proof.
  induction m as [|[k' v'] rest IH]; simpl; [reflexivity|].
  destruct (k' =? k)%Z eqn:E; simpl.
  - apply Z.eqb_eq in E. now subst.
  - rewrite IH. now destruct (Map_has k rest).
Qed.

Lemma Map_has_In k m : Map_has k m = true <-> In k (map fst m).
Proof.
  induction m as [|[k' v'] rest IH]; simpl.
  - split; [discriminate | tauto].
  - destruct (k' =? k)%Z eqn:E.
    + apply Z.eqb_eq in E. tauto.
    + apply Z.eqb_neq in E. rewrite IH. tauto.
Qed.

(** The operations keep the keys pairwise distinct. *)
Lemma Map_set_wf k v m : Map_wf m -> Map_wf (Map_set k v m).
Proof.
  unfold Map_wf. intros H. rewrite Map_keys_set.
  destruct (Map_has k m) eqn:E; [assumption|].
  apply NoDup_app; [assumption | repeat constructor; simpl; tauto |].
  intros a Ha [Hk|[]]. subst a. apply Map_has_In in Ha. congruence.
Qed.

Lemma Map_delete_keys_incl k m a :
  In a (map fst (Map_delete k m)) -> In a (map fst m).
Proof.
  induction m as [|[k' v'] rest IH]; simpl; [tauto|].
  destruct (k' =? k)%Z; simpl; tauto.
Qed.

Lemma Map_delete_wf k m : Map_wf m -> Map_wf (Map_delete k m).
Proof.
  unfold Map_wf. induction m as [|[k' v'] rest IH]; simpl; [tauto|].
  intros H. inversion H as [|? ? Hnin Hnd]; subst.
  destruct (k' =? k)%Z; simpl; [assumption|].
  constructor; [|now apply IH].
  intros Hin. apply Hnin. eapply Map_delete_keys_incl; eassumption.
Qed.

(** After [delete], the key is gone. *)
Lemma Map_has_delete k m : Map_wf m -> Map_has k (Map_delete k m) = false.
Proof.
  unfold Map_wf. induction m as [|[k' v'] rest IH]; simpl; [reflexivity|].
  intros H. inversion H as [|? ? Hnin Hnd]; subst.
  destruct (k' =? k)%Z eqn:E; simpl.
  - apply Z.eqb_eq in E. subst k'.
    destruct (Map_has k rest) eqn:Hh; [|reflexivity].
    apply Map_has_In in Hh. contradiction.
  - rewrite E. now apply IH.
Qed.
End JsMapFacts.

(** ** Pointer motion *)

(** C7.  A pointer-move event for an identifier the tracker does not hold
    leaves the whole state as it is: the tracker, the centroid, distance and
    single-pointer references, and every value behind the context setters
    (pointer signal, rotation boost, pan offset, zoom offset and the rest). *)
Theorem move_unknown_pointer_noop (window : Window) (event : PointerEvent.t) (s : State) :
  Map_has (PointerEvent.pointerId event) (pointers s) = false ->
  handlePointerMove window event s = s.
Proof.
  intros Hunknown. unfold handlePointerMove.
  rewrite Hunknown. reflexivity.
Qed.

Lemma move_unknown_pointer_noop_witness :
  handlePointerMove window0 (touch 7 10 20) idle = idle.
Proof.
  apply (move_unknown_pointer_noop window0 (touch 7 10 20) idle).
  reflexivity.
Defined.

(** C2.  A move of a tracked pointer, when it is the only tracked one and the
    motion is a drag (a button is held, or the pointer is a touch): with [dx]
    the horizontal distance from the single-pointer reference (the event's
    [movementX] when there is no reference), the rotation boost becomes
    [clamp (boost - dx * 0.01) (-3) 3], the single-pointer reference becomes
    the event's identifier and position, the tracker holds the new position,
    the pointer signal is the normalized position, and nothing else changes.
    When the sum stays inside [[-3, 3]] the boost moves by exactly
    [- dx * 0.01]. *)
Theorem drag_adds_rotation (window : Window) (event : PointerEvent.t) (s : State) :
  Map_has (PointerEvent.pointerId event) (pointers s) = true ->
  Map_size (pointers s) = 1%nat ->
  isDragging event = true ->
  let dx := match lastPrimary s with
            | Some prev => PointerEvent.clientX event - Primary.x prev
            | None => PointerEvent.movementX event
            end in
  handlePointerMove window event s =
    mkState
      (Map_set (PointerEvent.pointerId event)
         (Pt.mk (PointerEvent.clientX event) (PointerEvent.clientY event)) (pointers s))
      (lastCentroid s) (lastDistance s)
      (Some (Primary.mk (PointerEvent.pointerId event)
               (PointerEvent.clientX event) (PointerEvent.clientY event)))
      (Some (normalize window (PointerEvent.clientX event) (PointerEvent.clientY event)))
      (hoverProgress s) (clickTrigger s) (panOffset s)
      (clamp (rotationBoost s - dx * 0.01) (-3) 3)
      (zoomOffset s) (state s)
  /\ -3 <= rotationBoost (handlePointerMove window event s) <= 3
  /\ (-3 <= rotationBoost s - dx * 0.01 <= 3 ->
      rotationBoost (handlePointerMove window event s) = rotationBoost s + - dx * 0.01).
Proof.
  intros Htracked Hone Hdrag dx.
  assert (Hstep : handlePointerMove window event s =
    mkState
      (Map_set (PointerEvent.pointerId event)
         (Pt.mk (PointerEvent.clientX event) (PointerEvent.clientY event)) (pointers s))
      (lastCentroid s) (lastDistance s)
      (Some (Primary.mk (PointerEvent.pointerId event)
               (PointerEvent.clientX event) (PointerEvent.clientY event)))
      (Some (normalize window (PointerEvent.clientX event) (PointerEvent.clientY event)))
      (hoverProgress s) (clickTrigger s) (panOffset s)
      (clamp (rotationBoost s - dx * 0.01) (-3) 3)
      (zoomOffset s) (state s)).
  { unfold handlePointerMove. rewrite Htracked. cbn [negb].
    cbn [pointers set_pointers setPointer].
    rewrite (Map_set_size_has _ _ _ Htracked), Hone, Hdrag.
    reflexivity. }
  rewrite Hstep. cbn [rotationBoost].
  split; [reflexivity|]. split.
  - apply clamp_range. lra.
  - intros Hin. rewrite clamp_inside by exact Hin. lra.
Qed.

(** The drag of the spec: the pointer went down at x = 300 and moves to
    x = 280 with the button held; the boost goes from 0 to 0.2. *)
Lemma drag_adds_rotation_witness :
  rotationBoost
    (handlePointerMove window0 (mouse 1 280 200 1)
       (handlePointerDown window0 (mouse 1 300 200 1) idle)) = 0.2.
Proof.
  pose proof (drag_adds_rotation window0 (mouse 1 280 200 1)
                (handlePointerDown window0 (mouse 1 300 200 1) idle)
                eq_refl eq_refl eq_refl) as H.
  cbv zeta in H. destruct H as (_ & _ & Hadd).
  rewrite Hadd; cbn; lra.
Defined.

(** ** Wheel *)

(** C9.  A wheel event, whatever the tracker and the references hold, sets the
    pointer signal to the normalized position of the event, which is its
    coordinates divided by the window's width and height, replaces the zoom
    offset by [clamp (zoom - deltaY * 0.002) (-20) 40], and changes nothing
    else.  The new zoom offset lies in [[-20, 40]]: it is the old one plus
    [- deltaY * 0.002] when that sum lies in the interval, -20 when the sum is
    below it and 40 when the sum is above it. *)
Theorem wheel_zooms (window : Window) (event : WheelEvent.t) (s : State) :
  let s' := handleWheel window event s in
  let target := zoomOffset s - WheelEvent.deltaY event * 0.002 in
  s' =
    mkState (pointers s) (lastCentroid s) (lastDistance s) (lastPrimary s)
      (Some (normalize window (WheelEvent.clientX event) (WheelEvent.clientY event)))
      (hoverProgress s) (clickTrigger s) (panOffset s) (rotationBoost s)
      (clamp (zoomOffset s - WheelEvent.deltaY event * 0.002) (-20) 40)
      (state s)
  /\ -20 <= zoomOffset s' <= 40
  /\ pointer s' =
     Some (Pt.mk (WheelEvent.clientX event / innerWidth window)
                 (WheelEvent.clientY event / innerHeight window))
  /\ (-20 <= target <= 40 ->
      zoomOffset s' = zoomOffset s + - WheelEvent.deltaY event * 0.002)
  /\ (target < -20 -> zoomOffset s' = -20)
  /\ (40 < target -> zoomOffset s' = 40).
Proof.
  cbv zeta. split; [reflexivity|].
  unfold handleWheel. cbn [zoomOffset pointer setZoomOffset setPointer].
  split; [apply clamp_range; lra|].
  split; [reflexivity|].
  split; [intros Hin; rewrite (clamp_inside _ _ _ Hin); lra|].
  split; intros Hout; clamp_cases.
Qed.

(** On an 800 by 600 window, a wheel event at (400,150) with [deltaY] 100
    moves the zoom offset from 0 to -0.2 and puts the pointer signal at
    (0.5, 0.25), with no pointer tracked and with two pointers tracked alike;
    with [deltaY] -50000 the zoom offset is 40. *)
Lemma wheel_zooms_witness :
  let tracking := handlePointerDown window0 (touch 2 200 100)
                    (handlePointerDown window0 (touch 1 100 100) idle) in
  zoomOffset (handleWheel window0 (WheelEvent.mk 400 150 100) idle) = -0.2
  /\ pointer (handleWheel window0 (WheelEvent.mk 400 150 100) idle)
     = Some (Pt.mk 0.5 0.25)
  /\ zoomOffset (handleWheel window0 (WheelEvent.mk 400 150 100) tracking) = -0.2
  /\ pointers (handleWheel window0 (WheelEvent.mk 400 150 100) tracking)
     = pointers tracking
  /\ zoomOffset (handleWheel window0 (WheelEvent.mk 400 150 (-50000)) idle) = 40.
Proof.
  cbv zeta.
  set (tracking := handlePointerDown window0 (touch 2 200 100)
                     (handlePointerDown window0 (touch 1 100 100) idle)).
  pose proof (wheel_zooms window0 (WheelEvent.mk 400 150 100) idle) as Hidle.
  pose proof (wheel_zooms window0 (WheelEvent.mk 400 150 100) tracking) as Htracking.
  pose proof (wheel_zooms window0 (WheelEvent.mk 400 150 (-50000)) idle) as Hfar.
  cbv zeta in Hidle, Htracking, Hfar.
  destruct Hidle as (_ & _ & Hsignal & Hin & _ & _).
  destruct Htracking as (Hstate & _ & _ & Hin' & _ & _).
  destruct Hfar as (_ & _ & _ & _ & _ & Habove).
  split; [rewrite Hin; cbn; lra|].
  split; [rewrite Hsignal; cbn; do 2 f_equal; lra|].
  split; [rewrite Hin'; cbn; lra|].
  split; [rewrite Hstate; reflexivity|].
  apply Habove. cbn. lra.
Defined.

(** ** Double click *)

(** C8.  A double click turns [CHAOS] into [FORMED] and [FORMED] into [CHAOS],
    and touches nothing else; two double clicks in a row give back the state
    they started from. *)
Theorem double_click_twice (s : State) :
  handleDoubleClick (handleDoubleClick s) = s
  /\ state (handleDoubleClick s) <> state s
  /\ (state s = CHAOS -> state (handleDoubleClick s) = FORMED)
  /\ (state s = FORMED -> state (handleDoubleClick s) = CHAOS).
Proof.
  destruct s as [ps lc ld lp p hp ct pan rb z st].
  unfold handleDoubleClick, setState. cbn [state pointers lastCentroid lastDistance
    lastPrimary pointer hoverProgress clickTrigger panOffset rotationBoost zoomOffset].
  destruct st; cbn; repeat split; intros; congruence.
Qed.

Lemma double_click_twice_witness :
  state (handleDoubleClick idle) = CHAOS
  /\ state (handleDoubleClick (handleDoubleClick idle)) = FORMED.
Proof.
  destruct (double_click_twice idle) as (Htwice & _ & _ & Hflip).
  split.
  - apply Hflip. reflexivity.
  - rewrite Htwice. reflexivity.
Defined.

(** ** Pointer release *)

Lemma handlePointerUp_pointers window event s :
  pointers (handlePointerUp window event s)
  = Map_delete (PointerEvent.pointerId event) (pointers s).
Proof.
  unfold handlePointerUp. project.
  destruct (Map_delete _ (pointers s)) as [|[k p] rest]; reflexivity.
Qed.

(** C6.  Pointer-up and pointer-cancel remove the identifier from the tracker.
    If the tracker is then empty, the pointer signal and the centroid, distance
    and single-pointer references are all cleared.  Otherwise the first entry
    of the tracker, in iteration order, becomes the single-pointer reference
    and its normalized position, which is its coordinates divided by the
    window's width and height, becomes the pointer signal.  In particular,
    with two pointers tracked, releasing either one emits the normalized
    position of the other. *)
Theorem release_hands_over (window : Window) (event : PointerEvent.t) (s : State) :
  let s' := handlePointerUp window event s in
  dispatch window (pointerup event) s = s'
  /\ dispatch window (pointercancel event) s = s'
  /\ pointers s' = Map_delete (PointerEvent.pointerId event) (pointers s)
  /\ (pointers s' = [] ->
      pointer s' = None /\ lastCentroid s' = None /\ lastDistance s' = None
      /\ lastPrimary s' = None)
  /\ (forall firstId firstPoint rest,
      pointers s' = (firstId, firstPoint) :: rest ->
      lastPrimary s' = Some (Primary.mk firstId (Pt.x firstPoint) (Pt.y firstPoint))
      /\ pointer s' = Some (normalize window (Pt.x firstPoint) (Pt.y firstPoint))
      /\ pointer s' = Some (Pt.mk (Pt.x firstPoint / innerWidth window)
                                  (Pt.y firstPoint / innerHeight window)))
  /\ (forall a pa b pb,
      pointers s = [(a, pa); (b, pb)] -> a <> b ->
      (PointerEvent.pointerId event = a ->
       pointer s' = Some (normalize window (Pt.x pb) (Pt.y pb))
       /\ pointer s' = Some (Pt.mk (Pt.x pb / innerWidth window)
                                   (Pt.y pb / innerHeight window)))
      /\ (PointerEvent.pointerId event = b ->
          pointer s' = Some (normalize window (Pt.x pa) (Pt.y pa))
          /\ pointer s' = Some (Pt.mk (Pt.x pa / innerWidth window)
                                      (Pt.y pa / innerHeight window)))).
Proof.
  cbv zeta.
  pose proof (handlePointerUp_pointers window event s) as Hptr.
  assert (Hempty : pointers (handlePointerUp window event s) = [] ->
      pointer (handlePointerUp window event s) = None
      /\ lastCentroid (handlePointerUp window event s) = None
      /\ lastDistance (handlePointerUp window event s) = None
      /\ lastPrimary (handlePointerUp window event s) = None).
  { rewrite Hptr. unfold handlePointerUp. project.
    intros ->. repeat split; reflexivity. }
  assert (Hfirst : forall firstId firstPoint rest,
      pointers (handlePointerUp window event s) = (firstId, firstPoint) :: rest ->
      lastPrimary (handlePointerUp window event s)
        = Some (Primary.mk firstId (Pt.x firstPoint) (Pt.y firstPoint))
      /\ pointer (handlePointerUp window event s)
        = Some (normalize window (Pt.x firstPoint) (Pt.y firstPoint))
      /\ pointer (handlePointerUp window event s)
        = Some (Pt.mk (Pt.x firstPoint / innerWidth window)
                      (Pt.y firstPoint / innerHeight window))).
  { intros firstId firstPoint rest. rewrite Hptr. unfold handlePointerUp.
    project. intros ->. cbn. repeat split; reflexivity. }
  split; [reflexivity|]. split; [reflexivity|]. split; [exact Hptr|].
  split; [exact Hempty|]. split; [exact Hfirst|].
  intros a pa b pb Htwo Hne. split; intros Hid.
  - apply (Hfirst b pb []). rewrite Hptr, Htwo, Hid. simpl.
    now rewrite Z.eqb_refl.
  - apply (Hfirst a pa []). rewrite Hptr, Htwo, Hid. simpl.
    assert (E : (a =? b)%Z = false) by now apply Z.eqb_neq.
    now rewrite E, Z.eqb_refl.
Qed.

(** Two touches are down at (100,100) and (200,100) on an 800 by 600 window.
    Lifting the first emits (0.25, 1/6), the normalized position of the
    second, which becomes the single-pointer reference; lifting the second
    instead emits (0.125, 1/6); lifting both clears the signal. *)
Lemma release_hands_over_witness :
  let s := handlePointerDown window0 (touch 2 200 100)
             (handlePointerDown window0 (touch 1 100 100) idle) in
  pointer (handlePointerUp window0 (touch 1 100 100) s)
    = Some (Pt.mk 0.25 (1 / 6))
  /\ lastPrimary (handlePointerUp window0 (touch 1 100 100) s)
    = Some (Primary.mk 2 200 100)
  /\ pointer (handlePointerUp window0 (touch 2 200 100) s)
    = Some (Pt.mk 0.125 (1 / 6))
  /\ pointer (handlePointerUp window0 (touch 2 200 100)
                (handlePointerUp window0 (touch 1 100 100) s)) = None.
Proof.
  cbv zeta.
  set (s := handlePointerDown window0 (touch 2 200 100)
              (handlePointerDown window0 (touch 1 100 100) idle)).
  pose proof (release_hands_over window0 (touch 1 100 100) s) as H1.
  pose proof (release_hands_over window0 (touch 2 200 100) s) as H1'.
  pose proof (release_hands_over window0 (touch 2 200 100)
                (handlePointerUp window0 (touch 1 100 100) s)) as H2.
  cbv zeta in H1, H1', H2.
  destruct H1 as (_ & _ & _ & _ & Hfirst & _).
  destruct H1' as (_ & _ & _ & _ & _ & Hother).
  destruct H2 as (_ & _ & _ & Hempty & _).
  destruct (Hfirst 2%Z (Pt.mk 200 100) [] eq_refl) as (Hprimary & _ & Hsignal).
  assert (Hne : 1%Z <> 2%Z) by discriminate.
  destruct (Hother 1%Z (Pt.mk 100 100) 2%Z (Pt.mk 200 100) eq_refl Hne)
    as [_ Hsecond].
  destruct (Hsecond eq_refl) as [_ Hsignal'].
  destruct (Hempty eq_refl) as [Hnone _].
  split; [rewrite Hsignal; cbn; do 2 f_equal; lra|].
  split; [exact Hprimary|].
  split; [rewrite Hsignal'; cbn; do 2 f_equal; lra|].
  exact Hnone.
Defined.

(** ** Momentum decay *)

Lemma pow_094_pos (n : nat) : 0 < 0.94 ^ n.
Proof. apply pow_lt. lra. Qed.

Lemma pow_094_decreasing (n : nat) : 0.94 ^ S n <= 0.94 ^ n.
Proof. simpl. pose proof (pow_094_pos n). lra. Qed.

Lemma decay_update_small (v : R) : Math_abs v < 0.001 -> decay_update v = 0.
Proof. intros H. unfold decay_update. destruct (Rlt_dec _ _); [reflexivity | contradiction]. Qed.

Lemma decay_update_large (v : R) : ~ Math_abs v < 0.001 -> decay_update v = v * 0.94.
Proof. intros H. unfold decay_update. destruct (Rlt_dec _ _); [contradiction | reflexivity]. Qed.

Lemma decay_update_0 : decay_update 0 = 0.
Proof. apply decay_update_small. unfold Math_abs. rewrite Rabs_R0. lra. Qed.

Lemma decay_iter_boost (n : nat) (s : State) :
  rotationBoost (Nat.iter n decay s) = Nat.iter n decay_update (rotationBoost s).
Proof.
  induction n as [|n IH]; [reflexivity|].
  rewrite !Nat.iter_succ. unfold decay at 1.
  cbn [rotationBoost setRotationBoost]. now rewrite IH.
Qed.

Lemma decay_update_iter_0 (n : nat) : Nat.iter n decay_update 0 = 0.
Proof.
  induction n as [|n IH]; [reflexivity|].
  rewrite Nat.iter_succ, IH. apply decay_update_0.
Qed.

Lemma decay_update_iter_1 (n : nat) :
  0.001 <= 0.94 ^ Nat.pred n -> Nat.iter n decay_update 1 = 0.94 ^ n.
Proof.
  induction n as [|n IH]; [reflexivity|].
  intros Hn. rewrite Nat.iter_succ, IH.
  - rewrite decay_update_large; [simpl; lra|].
    unfold Math_abs. rewrite Rabs_pos_eq by (apply Rlt_le, pow_094_pos).
    simpl in Hn. lra.
  - destruct n as [|n]; [simpl; lra|].
    cbn [Nat.pred] in *. pose proof (pow_094_decreasing n). lra.
Qed.

(** C4.  One firing of the decay timer replaces a rotation boost [v] by 0 when
    [|v| < 0.001] and by [v * 0.94] otherwise, and changes nothing else.
    Hence a boost of 0 stays 0 under any number of firings, and a boost of 1
    is [0.94 ^ n] after [n] firings, as long as the value before the last of
    them, [0.94 ^ (n - 1)], has not dropped below 0.001. *)
Theorem decay_tick (s : State) (n : nat) :
  decay s =
    mkState (pointers s) (lastCentroid s) (lastDistance s) (lastPrimary s)
      (pointer s) (hoverProgress s) (clickTrigger s) (panOffset s)
      (decay_update (rotationBoost s)) (zoomOffset s) (state s)
  /\ (Math_abs (rotationBoost s) < 0.001 -> rotationBoost (decay s) = 0)
  /\ (~ Math_abs (rotationBoost s) < 0.001 ->
      rotationBoost (decay s) = rotationBoost s * 0.94)
  /\ (rotationBoost s = 0 -> rotationBoost (Nat.iter n decay s) = 0)
  /\ (rotationBoost s = 1 -> 0.001 <= 0.94 ^ Nat.pred n ->
      rotationBoost (Nat.iter n decay s) = 0.94 ^ n).
Proof.
  split; [reflexivity|].
  split; [intros Hsmall; now apply decay_update_small|].
  split; [intros Hlarge; now apply decay_update_large|].
  split.
  - intros H0. rewrite decay_iter_boost, H0. apply decay_update_iter_0.
  - intros H1 Hn. rewrite decay_iter_boost, H1. now apply decay_update_iter_1.
Qed.

(** Three firings from a boost of 1 give [0.94 ^ 3]; a boost of 0.0005 snaps
    to 0. *)
Lemma decay_tick_witness :
  rotationBoost (Nat.iter 3 decay (setRotationBoost (fun _ => 1) idle)) = 0.94 ^ 3
  /\ rotationBoost (decay (setRotationBoost (fun _ => 0.0005) idle)) = 0.
Proof.
  split.
  - apply (decay_tick (setRotationBoost (fun _ => 1) idle) 3); [reflexivity|].
    simpl. lra.
  - apply (decay_tick (setRotationBoost (fun _ => 0.0005) idle) 0).
    cbn [rotationBoost setRotationBoost]. unfold Math_abs, Rabs.
    destruct (Rcase_abs 0.0005); lra.
Defined.

(** ** Bounds of the accumulators *)

(** Running a list of events keeps whatever every single event keeps. *)
Lemma run_invariant (P : State -> Prop) :
  (forall window e s, P s -> P (dispatch window e s)) ->
  forall events s, P s -> P (run events s).
Proof.
  intros Hstep events. unfold run.
  induction events as [|[window e] events IH]; intros s Hs; simpl; [exact Hs|].
  apply IH, Hstep, Hs.
Qed.

Lemma run_app (events1 events2 : list (Window * Event)) (s : State) :
  run (events1 ++ events2) s = run events2 (run events1 s).
Proof. unfold run. apply fold_left_app. Qed.

(** The tracker of a reachable state has pairwise distinct keys, as a [Map]
    has: the list operations above are the operations of the [Map]. *)
Lemma reachable_wf (s : State) : reachable s -> Map_wf (pointers s).
Proof.
  intros (s0 & events & (Hptrs & _) & ->).
  apply (run_invariant (fun s => Map_wf (pointers s))).
  - intros window e s Hwf. destruct e; simpl; try exact Hwf.
    + unfold handlePointerDown. project. split_branches; project;
        now apply Map_set_wf.
    + unfold handlePointerMove. project. split_branches; project;
        solve [exact Hwf | now apply Map_set_wf].
    + rewrite handlePointerUp_pointers. now apply Map_delete_wf.
    + rewrite handlePointerUp_pointers. now apply Map_delete_wf.
  - rewrite Hptrs. constructor.
Qed.


Lemma handlePointerDown_in_bounds window event s :
  in_bounds s -> in_bounds (handlePointerDown window event s).
Proof. intros H. unfold handlePointerDown. split_branches; bounds. Qed.

Lemma handlePointerMove_in_bounds window event s :
  in_bounds s -> in_bounds (handlePointerMove window event s).
Proof. intros H. unfold handlePointerMove. project. split_branches; bounds. Qed.

Lemma handlePointerUp_in_bounds window event s :
  in_bounds s -> in_bounds (handlePointerUp window event s).
Proof. intros H. unfold handlePointerUp, Map_entries. project. split_branches; bounds. Qed.

Lemma handleWheel_in_bounds window event s :
  in_bounds s -> in_bounds (handleWheel window event s).
Proof. intros H. unfold handleWheel. bounds. Qed.

Lemma handleClick_in_bounds window event now s :
  in_bounds s -> in_bounds (handleClick window event now s).
Proof. intros H. unfold handleClick. bounds. Qed.

Lemma handleDoubleClick_in_bounds s :
  in_bounds s -> in_bounds (handleDoubleClick s).
Proof. intros H. unfold handleDoubleClick. bounds. Qed.

Lemma decay_update_range (v : R) : -3 <= v <= 3 -> -3 <= decay_update v <= 3.
Proof.
  intros Hv. unfold decay_update.
  destruct (Rlt_dec (Math_abs v) 0.001); lra.
Qed.

Lemma decay_in_bounds s : in_bounds s -> in_bounds (decay s).
Proof.
  intros H. unfold decay. unfold in_bounds in *. project.
  split; [apply decay_update_range|]; tauto.
Qed.

Lemma dispatch_in_bounds window e s :
  in_bounds s -> in_bounds (dispatch window e s).
Proof.
  intros H. destruct e; simpl.
  - now apply handlePointerDown_in_bounds.
  - now apply handlePointerMove_in_bounds.
  - now apply handlePointerUp_in_bounds.
  - now apply handlePointerUp_in_bounds.
  - now apply handleWheel_in_bounds.
  - now apply handleClick_in_bounds.
  - now apply handleDoubleClick_in_bounds.
  - now apply decay_in_bounds.
Qed.

(** C1.  From a state whose accumulators are inside their intervals, every
    sequence of events (pointer down, move, up, cancel, wheel, click, double
    click, decay firing), with any tracker contents and any window size, leads
    to a state where the rotation boost is in [[-3, 3]], the pan offset in
    [[-15, 15]] by [[-10, 10]] and the zoom offset in [[-20, 40]]. *)
Theorem accumulators_stay_in_bounds (events : list (Window * Event)) (s : State) :
  in_bounds s -> in_bounds (run events s).
Proof.
  intros Hs. apply run_invariant.
  - intros window e s0. apply dispatch_in_bounds.
  - exact Hs.
Qed.

Lemma accumulators_stay_in_bounds_witness :
  in_bounds
    (run [ (window0, pointerdown (touch 1 100 100));
           (window0, pointermove (touch 1 9000 100));
           (window0, pointerdown (touch 2 200 100));
           (window0, pointermove (touch 2 (-9000) 4000));
           (window0, wheel (WheelEvent.mk 10 10 (-50000)));
           (window0, interval);
           (window0, pointerup (touch 1 9000 100)) ] idle).
Proof.
  apply (accumulators_stay_in_bounds _ idle).
  unfold in_bounds, idle. project. lra.
Defined.

(** ** The single-pointer reference *)


Lemma dispatch_has_primary window e s :
  has_primary s -> has_primary (dispatch window e s).
Proof.
  unfold has_primary. intros H.
  destruct e; simpl; try exact H.
  - (* pointerdown *)
    unfold handlePointerDown. project. split_branches; project; discriminate.
  - (* pointermove *)
    unfold handlePointerMove.
    destruct (Map_has (PointerEvent.pointerId event) (pointers s)) eqn:Htracked;
      cbn [negb]; [|exact H].
    pose proof (H (Map_has_not_nil _ _ Htracked)) as Hprimary.
    project. split_branches; project; intros _; solve [discriminate | exact Hprimary].
  - (* pointerup *)
    unfold handlePointerUp, Map_entries. project.
    destruct (Map_delete _ (pointers s)) as [|[firstId firstPoint] rest];
      cbn; [tauto | discriminate].
  - (* pointercancel *)
    unfold handlePointerUp, Map_entries. project.
    destruct (Map_delete _ (pointers s)) as [|[firstId firstPoint] rest];
      cbn; [tauto | discriminate].
Qed.

Lemma reachable_has_primary s : reachable s -> has_primary s.
Proof.
  intros (s0 & events & (Hptrs & _) & ->).
  apply run_invariant.
  - apply dispatch_has_primary.
  - intros Hne. contradiction.
Qed.

(** C10.  In every state reached from the initial refs by any sequence of
    events, a non-empty tracker comes with a single-pointer reference; so the
    move handler never reads the event's [movementX]: replacing it by any
    other value gives the same result. *)
Theorem primary_reference_present (s : State) :
  reachable s ->
  (pointers s <> [] -> exists prev, lastPrimary s = Some prev)
  /\ (forall window event mx,
      handlePointerMove window (with_movementX mx event) s
      = handlePointerMove window event s).
Proof.
  intros Hreach. pose proof (reachable_has_primary s Hreach) as Hinv.
  unfold has_primary in Hinv. split.
  - intros Hne. destruct (lastPrimary s) as [prev|] eqn:E.
    + now exists prev.
    + now destruct (Hinv Hne).
  - intros window event mx. unfold handlePointerMove.
    change (PointerEvent.pointerId (with_movementX mx event))
      with (PointerEvent.pointerId event).
    change (PointerEvent.clientX (with_movementX mx event))
      with (PointerEvent.clientX event).
    change (PointerEvent.clientY (with_movementX mx event))
      with (PointerEvent.clientY event).
    change (isDragging (with_movementX mx event)) with (isDragging event).
    destruct (Map_has (PointerEvent.pointerId event) (pointers s)) eqn:Htracked;
      cbn [negb]; [|reflexivity].
    project.
    destruct (lastPrimary s) as [prev|] eqn:E; [reflexivity|].
    now destruct (Hinv (Map_has_not_nil _ _ Htracked)).
Qed.

Lemma primary_reference_present_witness :
  let s := run [ (window0, pointerdown (mouse 1 300 200 1));
                 (window0, pointerdown (touch 2 50 60));
                 (window0, pointerup (mouse 1 300 200 0)) ] idle in
  (exists prev, lastPrimary s = Some prev)
  /\ handlePointerMove window0 (with_movementX 5 (touch 2 40 60)) s
     = handlePointerMove window0 (touch 2 40 60) s.
Proof.
  cbv zeta.
  set (events := [ (window0, pointerdown (mouse 1 300 200 1));
                   (window0, pointerdown (touch 2 50 60));
                   (window0, pointerup (mouse 1 300 200 0)) ]).
  assert (Hreach : reachable (run events idle)).
  { exists idle, events. repeat split. }
  destruct (primary_reference_present (run events idle) Hreach) as [Hprev Hmove].
  split.
  - apply Hprev. discriminate.
  - apply Hmove.
Defined.

(** ** The centroid and distance references *)

Lemma agree_refl (s : State) : agree s s.
Proof. unfold agree. repeat split; reflexivity. Qed.

Lemma agree_with_multi_refs (c : option Pt.t) (d : option R) (s : State) :
  (Map_size (pointers s) < 2)%nat -> agree s (with_multi_refs c d s).
Proof.
  intros Hlt. unfold agree, with_multi_refs. project.
  repeat split; try reflexivity; lia.
Qed.

(** Two states that agree differ only in what the two references hold. *)
Lemma agree_up_to_refs (s1 s2 : State) :
  agree s1 s2 -> s2 = with_multi_refs (lastCentroid s2) (lastDistance s2) s1.
Proof.
  destruct s1, s2. unfold agree, with_multi_refs. project.
  intros (-> & -> & -> & -> & -> & -> & -> & -> & -> & _). reflexivity.
Qed.


Lemma dispatch_agree_few window e s c d :
  (Map_size (pointers s) < 2)%nat ->
  agree (dispatch window e s) (dispatch window e (with_multi_refs c d s)).
Proof.
  intros Hlt. unfold with_multi_refs. destruct e; simpl.
  - (* pointerdown *)
    unfold handlePointerDown. project.
    pose proof (Map_set_size_bounds (PointerEvent.pointerId event)
                  (Pt.mk (PointerEvent.clientX event) (PointerEvent.clientY event))
                  (pointers s)) as Hsize.
    destruct (Map_size (Map_set _ _ (pointers s)) =? 2)%nat eqn:Htwo.
    + agree_fields.
    + apply Nat.eqb_neq in Htwo. agree_fields.
  - (* pointermove *)
    unfold handlePointerMove. project.
    destruct (Map_has (PointerEvent.pointerId event) (pointers s)) eqn:Htracked;
      cbn [negb].
    + rewrite (Map_set_size_has _ _ _ Htracked).
      assert (Hno : (2 <=? Map_size (pointers s))%nat = false)
        by (apply Nat.leb_gt; exact Hlt).
      rewrite Hno.
      destruct ((Map_size (pointers s) =? 1)%nat && isDragging event);
        project; agree_fields;
        rewrite (Map_set_size_has _ _ _ Htracked) in *; lia.
    + agree_fields.
  - (* pointerup *)
    unfold handlePointerUp, Map_entries. project.
    pose proof (Map_delete_size_le (PointerEvent.pointerId event) (pointers s)) as Hsize.
    destruct (Map_delete _ (pointers s)) as [|[firstId firstPoint] rest] eqn:Hdel;
      cbn [Map_size List.length Nat.eqb]; agree_fields;
      cbn [Map_size List.length] in *; lia.
  - (* pointercancel *)
    unfold handlePointerUp, Map_entries. project.
    pose proof (Map_delete_size_le (PointerEvent.pointerId event) (pointers s)) as Hsize.
    destruct (Map_delete _ (pointers s)) as [|[firstId firstPoint] rest] eqn:Hdel;
      cbn [Map_size List.length Nat.eqb]; agree_fields;
      cbn [Map_size List.length] in *; lia.
  - unfold handleWheel. agree_fields.
  - unfold handleClick. agree_fields.
  - unfold handleDoubleClick. agree_fields.
  - unfold decay. agree_fields.
Qed.

Lemma dispatch_agree window e s1 s2 :
  agree s1 s2 -> agree (dispatch window e s1) (dispatch window e s2).
Proof.
  intros Hagree.
  destruct (le_lt_dec 2 (Map_size (pointers s1))) as [Hge|Hlt].
  - assert (s1 = s2) as <-; [|apply agree_refl].
    destruct s1, s2. unfold agree in Hagree. project.
    destruct Hagree as (-> & -> & -> & -> & -> & -> & -> & -> & -> & Hrefs).
    destruct (Hrefs Hge) as [-> ->]. reflexivity.
  - rewrite (agree_up_to_refs s1 s2 Hagree).
    now apply dispatch_agree_few.
Qed.

Lemma run_agree events : forall s1 s2,
  agree s1 s2 -> agree (run events s1) (run events s2).
Proof.
  unfold run. induction events as [|[window e] events IH]; intros s1 s2 H; simpl.
  - exact H.
  - apply IH, dispatch_agree, H.
Qed.

(** Two touches go down at (100,100) and (200,100) and the second one is
    lifted: the pointer count goes from 2 to 1, and the centroid and distance
    references still hold the two-pointer baseline.  So it does not hold that
    every transition of the pointer count below 2 resets them. *)
Lemma release_keeps_multi_refs :
  let s := run [ (window0, pointerdown (touch 1 100 100));
                 (window0, pointerdown (touch 2 200 100)) ] idle in
  let s' := dispatch window0 (pointerup (touch 2 200 100)) s in
  (Map_size (pointers s) = 2%nat
   /\ Map_size (pointers s') = 1%nat
   /\ lastCentroid s' = lastCentroid s
   /\ lastDistance s' = lastDistance s
   /\ lastCentroid s' <> None
   /\ lastDistance s' <> None)
  /\ ~ (forall window e s,
          reachable s ->
          (2 <= Map_size (pointers s))%nat ->
          (Map_size (pointers (dispatch window e s)) < 2)%nat ->
          lastCentroid (dispatch window e s) = None
          /\ lastDistance (dispatch window e s) = None).
Proof.
  cbv zeta.
  set (events := [ (window0, pointerdown (touch 1 100 100));
                   (window0, pointerdown (touch 2 200 100)) ]).
  split.
  - cbn. repeat split; discriminate.
  - intros Hclaim.
    assert (Hreach : reachable (run events idle)).
    { exists idle, events. repeat split. }
    destruct (Hclaim window0 (pointerup (touch 2 200 100)) (run events idle) Hreach)
      as [Hcentroid _].
    + cbn. lia.
    + cbn. lia.
    + cbn in Hcentroid. discriminate.
Qed.

(** C5, amended.  The centroid and distance references are reset when a
    pointer-up or pointer-cancel empties the tracker, and when a tracked
    pointer that is the only one moves without dragging.  A pointer-up or
    pointer-cancel that leaves a pointer tracked keeps them as they are.
    Whatever they hold while fewer than two pointers are tracked has no effect
    on what follows: after any sequence of events the tracker, the
    single-pointer reference and every context value are the same, and so are
    the two references themselves once two pointers are tracked again. *)
Theorem stale_multi_refs_unread :
  (forall window event s,
     pointers (handlePointerUp window event s) = [] ->
     lastCentroid (handlePointerUp window event s) = None
     /\ lastDistance (handlePointerUp window event s) = None)
  /\ (forall window event s,
     pointers (handlePointerUp window event s) <> [] ->
     lastCentroid (handlePointerUp window event s) = lastCentroid s
     /\ lastDistance (handlePointerUp window event s) = lastDistance s)
  /\ (forall window event s,
     Map_has (PointerEvent.pointerId event) (pointers s) = true ->
     Map_size (pointers s) = 1%nat ->
     isDragging event = false ->
     lastCentroid (handlePointerMove window event s) = None
     /\ lastDistance (handlePointerMove window event s) = None)
  /\ (forall events s c d,
     (Map_size (pointers s) < 2)%nat ->
     agree (run events s) (run events (with_multi_refs c d s))).
Proof.
  split; [|split; [|split]].
  - intros window event s. unfold handlePointerUp, Map_entries. project.
    destruct (Map_delete _ (pointers s)) as [|[firstId firstPoint] rest];
      cbn; [split; reflexivity | discriminate].
  - intros window event s. unfold handlePointerUp, Map_entries. project.
    destruct (Map_delete _ (pointers s)) as [|[firstId firstPoint] rest];
      cbn; [tauto | split; reflexivity].
  - intros window event s Htracked Hone Hhover. unfold handlePointerMove.
    rewrite Htracked. cbn [negb]. project.
    rewrite (Map_set_size_has _ _ _ Htracked), Hone, Hhover.
    cbn. split; reflexivity.
  - intros events s c d Hlt.
    apply run_agree, agree_with_multi_refs, Hlt.
Qed.

(** One touch is tracked and the two references hold stale values; a second
    touch goes down and the first one moves.  The pan and zoom offsets are
    what they are when the references start out empty. *)
Lemma stale_multi_refs_unread_witness :
  let s := handlePointerDown window0 (touch 1 100 100) idle in
  let events := [ (window0, pointerdown (touch 2 200 100));
                  (window0, pointermove (touch 1 100 50)) ] in
  agree (run events s)
        (run events (with_multi_refs (Some (Pt.mk 0 0)) (Some 1000) s)).
Proof.
  cbv zeta.
  apply (proj2 (proj2 (proj2 stale_multi_refs_unread))).
  cbn. lia.
Defined.

(** ** Two pointers *)

(** [Math.hypot] where the sum of squares is a square, and between two
    squares. *)
Lemma Math_hypot_exact (a b r : R) :
  0 <= r -> a * a + b * b = r * r -> Math_hypot a b = r.
Proof. intros Hr E. unfold Math_hypot. rewrite E. now apply sqrt_square. Qed.

Lemma Math_hypot_between (a b lo hi : R) :
  0 <= lo -> lo * lo <= a * a + b * b <= hi * hi -> 0 <= hi ->
  lo <= Math_hypot a b <= hi.
Proof.
  intros Hlo [H1 H2] Hhi. unfold Math_hypot. split.
  - rewrite <- (sqrt_square lo Hlo). apply sqrt_le_1_alt, H1.
  - rewrite <- (sqrt_square hi Hhi). apply sqrt_le_1_alt, H2.
Qed.

(** Pointer-down leaves the context values other than the pointer signal. *)
Lemma handlePointerDown_frame window event s :
  hoverProgress (handlePointerDown window event s) = hoverProgress s
  /\ clickTrigger (handlePointerDown window event s) = clickTrigger s
  /\ panOffset (handlePointerDown window event s) = panOffset s
  /\ rotationBoost (handlePointerDown window event s) = rotationBoost s
  /\ zoomOffset (handlePointerDown window event s) = zoomOffset s
  /\ state (handlePointerDown window event s) = state s.
Proof.
  unfold handlePointerDown. project.
  destruct (Map_size _ =? 2)%nat; project; repeat split; reflexivity.
Qed.

(** The second pointer-down: the baseline of the multi-pointer references. *)
Lemma down_second window a pa (event : PointerEvent.t) s :
  pointers s = [(a, pa)] ->
  PointerEvent.pointerId event <> a ->
  let pb := Pt.mk (PointerEvent.clientX event) (PointerEvent.clientY event) in
  handlePointerDown window event s =
    mkState [(a, pa); (PointerEvent.pointerId event, pb)]
      (Some (Pt.mk ((Pt.x pa + Pt.x pb) / 2) ((Pt.y pa + Pt.y pb) / 2)))
      (Some (Math_hypot (Pt.x pa - Pt.x pb) (Pt.y pa - Pt.y pb)))
      (Some (Primary.mk (PointerEvent.pointerId event)
               (PointerEvent.clientX event) (PointerEvent.clientY event)))
      (Some (normalize window (PointerEvent.clientX event) (PointerEvent.clientY event)))
      (hoverProgress s) (clickTrigger s) (panOffset s) (rotationBoost s)
      (zoomOffset s) (state s).
Proof.
  intros Hp Hne pb. unfold handlePointerDown. project. rewrite Hp.
  cbn [Map_set]. 
  assert (E : (a =? PointerEvent.pointerId event)%Z = false) by (apply Z.eqb_neq; congruence).
  rewrite E. cbn [Map_size List.length Nat.eqb Map_values map snd item nth].
  reflexivity.
Qed.

(** A move of one of two tracked pointers, with both references set: the
    multi-pointer branch, written out. *)
Lemma move_two window a b pa pb lc ld (event : PointerEvent.t) s :
  pointers s = [(a, pa); (b, pb)] ->
  a <> b ->
  PointerEvent.pointerId event = a \/ PointerEvent.pointerId event = b ->
  lastCentroid s = Some lc ->
  lastDistance s = Some ld ->
  let p := Pt.mk (PointerEvent.clientX event) (PointerEvent.clientY event) in
  let pa' := if (PointerEvent.pointerId event =? a)%Z then p else pa in
  let pb' := if (PointerEvent.pointerId event =? a)%Z then pb else p in
  let centroid := Pt.mk ((0 + Pt.x pa' + Pt.x pb') / (1 + 1))
                        ((0 + Pt.y pa' + Pt.y pb') / (1 + 1)) in
  let dist := Math_hypot (Pt.x pa' - Pt.x pb') (Pt.y pa' - Pt.y pb') in
  handlePointerMove window event s =
    mkState [(a, pa'); (b, pb')] (Some centroid) (Some dist) (lastPrimary s)
      (Some (normalize window (PointerEvent.clientX event) (PointerEvent.clientY event)))
      (hoverProgress s) (clickTrigger s)
      (Pt.mk (clamp (Pt.x (panOffset s) + (Pt.x centroid - Pt.x lc) * 0.02) (-15) 15)
             (clamp (Pt.y (panOffset s) - (Pt.y centroid - Pt.y lc) * 0.02) (-10) 10))
      (rotationBoost s)
      (clamp (zoomOffset s - (dist - ld) * 0.01) (-20) 40)
      (state s).
Proof.
  intros Hp Hne Hid Hc Hd. cbv zeta.
  unfold handlePointerMove. project. rewrite Hp, Hc. project. rewrite Hd.
  assert (Eab : (a =? b)%Z = false) by (apply Z.eqb_neq; congruence).
  assert (Eba : (b =? a)%Z = false) by (apply Z.eqb_neq; congruence).
  destruct Hid as [-> | ->].
  - cbn [Map_has Map_set]. rewrite !Z.eqb_refl. cbn [negb].
    cbn [Map_size List.length Nat.eqb Nat.leb andb Map_values map snd item nth
         sum_x sum_y fold_left Pt.x Pt.y INR].
    reflexivity.
  - cbn [Map_has Map_set]. rewrite Eab, Eba, !Z.eqb_refl. cbn [negb].
    cbn [Map_size List.length Nat.eqb Nat.leb andb Map_values map snd item nth
         sum_x sum_y fold_left Pt.x Pt.y INR].
    reflexivity.
Qed.

(** C3.  Two touches go down at (100,100) and (200,100) on an empty tracker:
    the baseline of the second pointer-down is a distance of 100 and the
    centroid (150,100).  Then the first touch moves to (100,50) and the second
    to (250,50): the centroid is (175,50), the distance 150, the pan offset
    has moved by +0.5 in [x] and by +1.0 in [y] and the zoom offset by -0.5,
    each write clamped to its interval.  With the two moves in the other order
    the references and the pan offset are the same, and so is the zoom offset
    when it starts at -19.4 or above (the distance then passes through a
    larger value, and a clamp at -20 on the way would be felt). *)
Theorem two_pointer_gesture (window : Window) (a b : Z) (s : State) :
  pointers s = [] -> a <> b -> in_bounds s ->
  let d2 := handlePointerDown window (touch b 200 100)
              (handlePointerDown window (touch a 100 100) s) in
  let m := handlePointerMove window (touch b 250 50)
             (handlePointerMove window (touch a 100 50) d2) in
  let m' := handlePointerMove window (touch a 100 50)
              (handlePointerMove window (touch b 250 50) d2) in
  (lastDistance d2 = Some 100 /\ lastCentroid d2 = Some (Pt.mk 150 100))
  /\ (lastCentroid m = Some (Pt.mk 175 50)
      /\ lastDistance m = Some 150
      /\ panOffset m = Pt.mk (clamp (Pt.x (panOffset s) + 0.5) (-15) 15)
                             (clamp (Pt.y (panOffset s) + 1.0) (-10) 10)
      /\ zoomOffset m = clamp (zoomOffset s + -0.5) (-20) 40)
  /\ (lastCentroid m' = Some (Pt.mk 175 50)
      /\ lastDistance m' = Some 150
      /\ panOffset m' = Pt.mk (clamp (Pt.x (panOffset s) + 0.5) (-15) 15)
                              (clamp (Pt.y (panOffset s) + 1.0) (-10) 10)
      /\ (-19.4 <= zoomOffset s -> zoomOffset m' = zoomOffset s + -0.5)).
Proof.
  intros Hempty Hne Hb. cbv zeta.
  assert (Hd1 : pointers (handlePointerDown window (touch a 100 100) s)
                = [(a, Pt.mk 100 100)]).
  { unfold handlePointerDown. project. rewrite Hempty. reflexivity. }
  pose proof (down_second window a (Pt.mk 100 100) (touch b 200 100) _ Hd1) as Hd2.
  cbv zeta in Hd2.
  cbn [touch PointerEvent.pointerId PointerEvent.clientX PointerEvent.clientY
       Pt.x Pt.y] in Hd2.
  specialize (Hd2 (not_eq_sym Hne)).
  destruct (handlePointerDown_frame window (touch a 100 100) s)
    as (-> & -> & -> & -> & -> & ->) in Hd2.
  rewrite Hd2. clear Hd1 Hd2.
  assert (Eab : (a =? b)%Z = false) by (apply Z.eqb_neq; congruence).
  assert (Eba : (b =? a)%Z = false) by (apply Z.eqb_neq; congruence).
  assert (H100 : Math_hypot (100 - 200) (100 - 100) = 100)
    by (apply Math_hypot_exact; lra).
  assert (H150 : Math_hypot (100 - 250) (50 - 50) = 150)
    by (apply Math_hypot_exact; lra).
  assert (Hr1 : 111 <= Math_hypot (100 - 200) (50 - 100) <= 112)
    by (apply Math_hypot_between; lra).
  assert (Hr2 : 158 <= Math_hypot (100 - 250) (100 - 50) <= 159)
    by (apply Math_hypot_between; lra).
  destruct Hb as (_ & Hpx & Hpy & Hz).
  split; [|split].
  - cbn [lastDistance lastCentroid]. split.
    + now rewrite H100.
    + do 2 f_equal; lra.
  - erewrite (move_two window a b _ _ _ _ (touch a 100 50)); try reflexivity;
      [|exact Hne | now left].
    cbv zeta.
    cbn [touch PointerEvent.pointerId PointerEvent.clientX PointerEvent.clientY].
    rewrite Z.eqb_refl.
    erewrite (move_two window a b _ _ _ _ (touch b 250 50)); try reflexivity;
      [|exact Hne | now right].
    cbv zeta.
    cbn [touch PointerEvent.pointerId PointerEvent.clientX PointerEvent.clientY].
    rewrite Eba. project. rewrite H100, H150.
    set (r := Math_hypot (100 - 200) (50 - 100)) in *. clearbody r.
    split; [do 2 f_equal; lra|]. split; [reflexivity|].
    split; [f_equal; clamp_cases | clamp_cases].
  - erewrite (move_two window a b _ _ _ _ (touch b 250 50)); try reflexivity;
      [|exact Hne | now right].
    cbv zeta.
    cbn [touch PointerEvent.pointerId PointerEvent.clientX PointerEvent.clientY].
    rewrite Eba.
    erewrite (move_two window a b _ _ _ _ (touch a 100 50)); try reflexivity;
      [|exact Hne | now left].
    cbv zeta.
    cbn [touch PointerEvent.pointerId PointerEvent.clientX PointerEvent.clientY].
    rewrite Z.eqb_refl. project. rewrite H100, H150.
    set (r := Math_hypot (100 - 250) (100 - 50)) in *. clearbody r.
    split; [do 2 f_equal; lra|]. split; [reflexivity|].
    split; [f_equal; clamp_cases | intros Hlow; clamp_cases].
Qed.

(** From zero offsets: pan (0.5, 1), zoom -0.5. *)
Lemma two_pointer_gesture_witness :
  let d2 := handlePointerDown window0 (touch 2 200 100)
              (handlePointerDown window0 (touch 1 100 100) idle) in
  let m := handlePointerMove window0 (touch 2 250 50)
             (handlePointerMove window0 (touch 1 100 50) d2) in
  lastDistance d2 = Some 100
  /\ lastCentroid d2 = Some (Pt.mk 150 100)
  /\ lastCentroid m = Some (Pt.mk 175 50)
  /\ lastDistance m = Some 150
  /\ panOffset m = Pt.mk 0.5 1
  /\ zoomOffset m = -0.5.
Proof.
  cbv zeta.
  assert (Hidle : in_bounds idle) by (unfold in_bounds, idle; project; lra).
  assert (Hne : 1%Z <> 2%Z) by discriminate.
  destruct (two_pointer_gesture window0 1 2 idle eq_refl Hne Hidle)
    as ((Hdist & Hcentroid) & (Hcentroid' & Hdist' & Hpan & Hzoom) & _).
  repeat split; try assumption.
  - rewrite Hpan. unfold idle. project.
    rewrite !clamp_inside by lra. f_equal; lra.
  - rewrite Hzoom. unfold idle. project.
    rewrite clamp_inside by lra. lra.
Defined.

(** * Further properties of the handlers *)

(** ** [clamp] and [normalize] *)

(** X1.  [clamp] never exceeds [max]; with [min <= max] it never goes below
    [min] and leaves exactly the values of the interval alone; with
    [max < min] it returns [max]; it is idempotent and monotone. *)
Theorem clamp_laws (value value' min max : R) :
  clamp value min max <= max
  /\ (min <= max -> min <= clamp value min max)
  /\ (min <= max -> (clamp value min max = value <-> min <= value <= max))
  /\ (max < min -> clamp value min max = max)
  /\ clamp (clamp value min max) min max = clamp value min max
  /\ (value <= value' -> clamp value min max <= clamp value' min max).
Proof.
  split; [clamp_cases|].
  split; [intros Hle; clamp_cases|].
  split; [intros Hle; split; [intros Heq; revert Heq|intros Hin]; clamp_cases|].
  split; [intros Hlt; clamp_cases|].
  split; [clamp_cases|].
  intros Hle. clamp_cases.
Qed.

(** X2.  On a window of positive size, [normalize] maps exactly the points of
    the window into the unit square (it does not clamp the others), and
    scaling back by the window size gives the position again. *)
Theorem normalize_unit_square (window : Window) (x y : R) :
  0 < innerWidth window -> 0 < innerHeight window ->
  (0 <= Pt.x (normalize window x y) <= 1 <-> 0 <= x <= innerWidth window)
  /\ (0 <= Pt.y (normalize window x y) <= 1 <-> 0 <= y <= innerHeight window)
  /\ Pt.x (normalize window x y) * innerWidth window = x
  /\ Pt.y (normalize window x y) * innerHeight window = y.
Proof.
  intros Hw Hh. unfold normalize. cbn [Pt.x Pt.y].
  assert (Ex : x / innerWidth window * innerWidth window = x) by (field; lra).
  assert (Ey : y / innerHeight window * innerHeight window = y) by (field; lra).
  set (nx := x / innerWidth window) in *.
  set (ny := y / innerHeight window) in *.
  repeat split; try assumption; intros; nra.
Qed.

Lemma normalize_unit_square_witness :
  Pt.x (normalize window0 400 150) * 800 = 400
  /\ 0 <= Pt.x (normalize window0 400 150) <= 1.
Proof.
  assert (Hw : 0 < innerWidth window0) by (cbn; lra).
  assert (Hh : 0 < innerHeight window0) by (cbn; lra).
  destruct (normalize_unit_square window0 400 150 Hw Hh) as (Hx & _ & Hback & _).
  split.
  - exact Hback.
  - apply Hx. cbn. lra.
Defined.

(** ** The tracker under the pointer handlers *)

Section JsMapOrder.
Context {V : Type}.
Implicit Types (m : JsMap V) (k : Z) (v : V).

Lemma Map_set_In k v m : In (k, v) (Map_set k v m).
Proof.
  induction m as [|[k' v'] rest IH]; simpl; [now left|].
  destruct (k' =? k)%Z; simpl; [now left | now right].
Qed.

Lemma Map_set_In_other k v k' v' m :
  k' <> k -> (In (k', v') (Map_set k v m) <-> In (k', v') m).
Proof.
  intros Hne. induction m as [|[k0 v0] rest IH]; simpl.
  - split; [intros [E|[]]; congruence | tauto].
  - destruct (k0 =? k)%Z eqn:E; simpl.
    + apply Z.eqb_eq in E. subst k0.
      split; intros [H|H]; try (now right); congruence.
    + rewrite IH. tauto.
Qed.

Lemma Map_delete_absent k m : Map_has k m = false -> Map_delete k m = m.
Proof.
  induction m as [|[k' v'] rest IH]; simpl; [reflexivity|].
  destruct (k' =? k)%Z; [discriminate|].
  intros H. now rewrite IH.
Qed.

Lemma Map_delete_set_new k v m :
  Map_has k m = false -> Map_delete k (Map_set k v m) = m.
Proof.
  induction m as [|[k' v'] rest IH]; simpl.
  - now rewrite Z.eqb_refl.
  - destruct (k' =? k)%Z eqn:E; [discriminate|].
    intros H. simpl. now rewrite E, IH.
Qed.

Lemma Map_keys_after_set k v m :
  Map_keys (Map_set k v m) =
  if Map_has k m then Map_keys m else (Map_keys m ++ [k])%list.
Proof. unfold Map_keys. apply Map_keys_set. Qed.
End JsMapOrder.

Lemma handlePointerDown_pointers window event s :
  pointers (handlePointerDown window event s)
  = Map_set (PointerEvent.pointerId event)
      (Pt.mk (PointerEvent.clientX event) (PointerEvent.clientY event)) (pointers s).
Proof.
  unfold handlePointerDown. project.
  destruct (Map_size _ =? 2)%nat; reflexivity.
Qed.

Lemma handlePointerMove_pointers window event s :
  pointers (handlePointerMove window event s)
  = if Map_has (PointerEvent.pointerId event) (pointers s)
    then Map_set (PointerEvent.pointerId event)
           (Pt.mk (PointerEvent.clientX event) (PointerEvent.clientY event)) (pointers s)
    else pointers s.
Proof.
  unfold handlePointerMove. project.
  destruct (Map_has _ (pointers s)); cbn [negb]; [|reflexivity].
  split_branches; reflexivity.
Qed.

(** X3.  Pointer-down records the event's position under its identifier: a
    new identifier goes to the end of the iteration order, a known one keeps
    its place, and the samples of the other pointers are untouched.  It makes
    the pointer the single-pointer reference, emits its normalized position,
    and leaves the accumulators alone. *)
Theorem pointer_down_registers (window : Window) (event : PointerEvent.t) (s : State) :
  let s' := handlePointerDown window event s in
  let id := PointerEvent.pointerId event in
  In (id, Pt.mk (PointerEvent.clientX event) (PointerEvent.clientY event)) (pointers s')
  /\ Map_keys (pointers s') =
     (if Map_has id (pointers s) then Map_keys (pointers s)
      else (Map_keys (pointers s) ++ [id])%list)
  /\ (forall k p, k <> id -> (In (k, p) (pointers s') <-> In (k, p) (pointers s)))
  /\ lastPrimary s'
     = Some (Primary.mk id (PointerEvent.clientX event) (PointerEvent.clientY event))
  /\ pointer s'
     = Some (normalize window (PointerEvent.clientX event) (PointerEvent.clientY event))
  /\ panOffset s' = panOffset s /\ rotationBoost s' = rotationBoost s
  /\ zoomOffset s' = zoomOffset s.
Proof.
  cbv zeta. rewrite handlePointerDown_pointers.
  split; [apply Map_set_In|].
  split; [apply Map_keys_after_set|].
  split; [intros k p Hk; now apply Map_set_In_other|].
  unfold handlePointerDown. project.
  destruct (Map_size _ =? 2)%nat; project; repeat split; reflexivity.
Qed.

(** X4.  Pointer-move never adds, removes or reorders tracked pointers.  For a
    tracked identifier it records the event's position, keeps the samples of
    the other pointers and emits the normalized position. *)
Theorem pointer_move_keeps_keys (window : Window) (event : PointerEvent.t) (s : State) :
  let s' := handlePointerMove window event s in
  let id := PointerEvent.pointerId event in
  Map_keys (pointers s') = Map_keys (pointers s)
  /\ Map_size (pointers s') = Map_size (pointers s)
  /\ (forall k p, k <> id -> (In (k, p) (pointers s') <-> In (k, p) (pointers s)))
  /\ (Map_has id (pointers s) = true ->
      In (id, Pt.mk (PointerEvent.clientX event) (PointerEvent.clientY event)) (pointers s')
      /\ pointer s'
         = Some (normalize window (PointerEvent.clientX event) (PointerEvent.clientY event))).
Proof.
  cbv zeta. rewrite handlePointerMove_pointers.
  destruct (Map_has (PointerEvent.pointerId event) (pointers s)) eqn:Htracked.
  - split; [rewrite Map_keys_after_set, Htracked; reflexivity|].
    split; [now apply Map_set_size_has|].
    split; [intros k p Hk; now apply Map_set_In_other|].
    intros _. split; [apply Map_set_In|].
    unfold handlePointerMove. rewrite Htracked. cbn [negb]. project.
    split_branches; reflexivity.
  - repeat split; try reflexivity; try tauto; discriminate.
Qed.

(** X5.  Once a pointer is released, a move for the same identifier is
    ignored: the state is the one the release left. *)
Theorem move_after_release_ignored
    (window window' : Window) (event event' : PointerEvent.t) (s : State) :
  reachable s ->
  PointerEvent.pointerId event' = PointerEvent.pointerId event ->
  handlePointerMove window' event' (handlePointerUp window event s)
  = handlePointerUp window event s.
Proof.
  intros Hreach Hid. unfold handlePointerMove at 1.
  rewrite handlePointerUp_pointers, Hid.
  rewrite Map_has_delete by now apply reachable_wf.
  reflexivity.
Qed.

Lemma move_after_release_ignored_witness :
  let s := run [ (window0, pointerdown (touch 1 100 100));
                 (window0, pointerdown (touch 2 200 100)) ] idle in
  handlePointerMove window0 (touch 2 300 300) (handlePointerUp window0 (touch 2 200 100) s)
  = handlePointerUp window0 (touch 2 200 100) s.
Proof.
  cbv zeta.
  apply move_after_release_ignored; [|reflexivity].
  exists idle, [ (window0, pointerdown (touch 1 100 100));
                 (window0, pointerdown (touch 2 200 100)) ].
  repeat split.
Defined.

(** X6.  Pointer-down followed by pointer-up of an identifier that was not
    tracked gives back the tracker as it was and leaves every context value
    but the pointer signal.  On initial refs the whole state comes back, with
    the pointer signal cleared: a tap leaves no rotation, pan or zoom. *)
Theorem down_up_round_trip
    (window window' : Window) (event event' : PointerEvent.t) (s : State) :
  PointerEvent.pointerId event' = PointerEvent.pointerId event ->
  Map_has (PointerEvent.pointerId event) (pointers s) = false ->
  let s' := handlePointerUp window' event' (handlePointerDown window event s) in
  pointers s' = pointers s
  /\ panOffset s' = panOffset s /\ rotationBoost s' = rotationBoost s
  /\ zoomOffset s' = zoomOffset s /\ state s' = state s
  /\ hoverProgress s' = hoverProgress s /\ clickTrigger s' = clickTrigger s
  /\ (refs_initial s -> s' = setPointer None s).
Proof.
  intros Hid Hnew. cbv zeta.
  assert (Hptr : pointers (handlePointerUp window' event' (handlePointerDown window event s))
                 = pointers s).
  { rewrite handlePointerUp_pointers, handlePointerDown_pointers, Hid.
    now apply Map_delete_set_new. }
  split; [exact Hptr|].
  assert (Hframe : forall s0,
    panOffset (handlePointerUp window' event' s0) = panOffset s0
    /\ rotationBoost (handlePointerUp window' event' s0) = rotationBoost s0
    /\ zoomOffset (handlePointerUp window' event' s0) = zoomOffset s0
    /\ state (handlePointerUp window' event' s0) = state s0
    /\ hoverProgress (handlePointerUp window' event' s0) = hoverProgress s0
    /\ clickTrigger (handlePointerUp window' event' s0) = clickTrigger s0).
  { intros s0. unfold handlePointerUp, Map_entries. project.
    destruct (Map_delete _ (pointers s0)) as [|[k p] rest]; cbn;
      repeat split; reflexivity. }
  destruct (Hframe (handlePointerDown window event s))
    as (-> & -> & -> & -> & -> & ->).
  destruct (handlePointerDown_frame window event s)
    as (-> & -> & -> & -> & -> & ->).
  repeat split.
  intros (Hempty & Hc & Hd & Hp). clear Hptr Hframe Hnew.
  destruct s as [ps lc ld lp p hp ct pan rb z st]. project. subst.
  unfold handlePointerUp, handlePointerDown. project.
  cbn [Map_set Map_size List.length Nat.eqb]. project.
  rewrite Hid. cbn [Map_delete]. rewrite Z.eqb_refl.
  cbn [Map_size List.length Nat.eqb]. reflexivity.
Qed.

Lemma down_up_round_trip_witness :
  handlePointerUp window0 (mouse 1 310 205 0)
    (handlePointerDown window0 (mouse 1 300 200 1) idle)
  = setPointer None idle.
Proof.
  assert (Hidle : refs_initial idle) by (repeat split).
  now apply (down_up_round_trip window0 window0 (mouse 1 300 200 1) (mouse 1 310 205 0)
               idle eq_refl eq_refl).
Defined.



(** ** What holds while pointers are tracked *)

Lemma Map_has_set_other {V : Type} (k k' : Z) (v : V) (m : JsMap V) :
  Map_has k m = true -> Map_has k (Map_set k' v m) = true.
Proof.
  induction m as [|[k0 v0] rest IH]; simpl; [discriminate|].
  destruct (k0 =? k)%Z eqn:E.
  - intros _. destruct (k0 =? k')%Z eqn:E'; simpl.
    + apply Z.eqb_eq in E, E'. subst. now rewrite Z.eqb_refl.
    + now rewrite E.
  - intros H. destruct (k0 =? k')%Z eqn:E'; simpl.
    + apply Z.eqb_eq in E'. subst k0. rewrite Z.eqb_sym in E.
      destruct (k' =? k)%Z eqn:E2; [reflexivity|].
      rewrite Z.eqb_sym in E. congruence.
    + rewrite E. now apply IH.
Qed.

Lemma dispatch_tracking_consistent window e s :
  tracking_consistent s -> tracking_consistent (dispatch window e s).
Proof.
  unfold tracking_consistent. intros (Hprimary & Htracked & Hsignal).
  destruct e; simpl.
  - (* pointerdown *)
    rewrite handlePointerDown_pointers.
    unfold handlePointerDown. project.
    destruct (Map_size _ =? 2)%nat; project;
      (split; [discriminate|]; split; [|discriminate]);
      intros prev [= <-]; apply Map_has_set.
  - (* pointermove *)
    rewrite handlePointerMove_pointers. unfold handlePointerMove.
    destruct (Map_has (PointerEvent.pointerId event) (pointers s)) eqn:Hhas;
      cbn [negb]; [|tauto].
    pose proof (Hprimary (Map_has_not_nil _ _ Hhas)) as Hsome.
    project. split_branches; project;
      (split; [intros _; solve [discriminate | exact Hsome]|];
       split; [|intros _; discriminate]);
      intros prev Hprev;
      solve [ injection Hprev as <-; apply Map_has_set
            | apply Map_has_set_other, Htracked, Hprev ].
  - (* pointerup *)
    rewrite handlePointerUp_pointers. unfold handlePointerUp, Map_entries. project.
    destruct (Map_delete _ (pointers s)) as [|[firstId firstPoint] rest]; cbn.
    + repeat split; try tauto; discriminate.
    + split; [discriminate|]. split; [|discriminate].
      intros prev [= <-]. cbn. now rewrite Z.eqb_refl.
  - (* pointercancel *)
    rewrite handlePointerUp_pointers. unfold handlePointerUp, Map_entries. project.
    destruct (Map_delete _ (pointers s)) as [|[firstId firstPoint] rest]; cbn.
    + repeat split; try tauto; discriminate.
    + split; [discriminate|]. split; [|discriminate].
      intros prev [= <-]. cbn. now rewrite Z.eqb_refl.
  - unfold handleWheel. project. repeat split; try assumption. discriminate.
  - unfold handleClick. project. repeat split; try assumption. discriminate.
  - unfold handleDoubleClick. project. repeat split; assumption.
  - unfold decay. project. repeat split; assumption.
Qed.

(** X8.  In every state reached from the initial refs: the single-pointer
    reference is absent exactly when no pointer is tracked; when present it
    names a tracked pointer; and while a pointer is tracked the pointer signal
    is present. *)
Theorem tracking_invariant (s : State) :
  reachable s ->
  (pointers s = [] <-> lastPrimary s = None)
  /\ (forall prev, lastPrimary s = Some prev ->
      Map_has (Primary.id prev) (pointers s) = true)
  /\ (pointers s <> [] -> exists p, pointer s = Some p).
Proof.
  intros (s0 & events & (Hptrs & _ & _ & Hnone) & ->).
  assert (H : tracking_consistent (run events s0)).
  { apply run_invariant; [apply dispatch_tracking_consistent|].
    unfold tracking_consistent. rewrite Hptrs, Hnone.
    repeat split; try tauto; discriminate. }
  destruct H as (Hprimary & Htracked & Hsignal).
  split; [split|split].
  - intros Hempty. destruct (lastPrimary (run events s0)) as [prev|] eqn:E;
      [|reflexivity].
    specialize (Htracked prev eq_refl). rewrite Hempty in Htracked. discriminate.
  - intros Hnone'. destruct (pointers (run events s0)) as [|entry rest] eqn:E;
      [reflexivity|].
    exfalso. apply Hprimary; [discriminate | exact Hnone'].
  - exact Htracked.
  - intros Hne. destruct (pointer (run events s0)) as [p|] eqn:E.
    + now exists p.
    + now destruct (Hsignal Hne).
Qed.

Lemma tracking_invariant_witness :
  let s := run [ (window0, pointerdown (touch 1 100 100));
                 (window0, pointerdown (touch 2 200 100));
                 (window0, pointermove (touch 1 120 100));
                 (window0, pointerup (touch 2 200 100)) ] idle in
  (exists p, pointer s = Some p)
  /\ (pointers s = [] <-> lastPrimary s = None).
Proof.
  cbv zeta.
  set (events := [ (window0, pointerdown (touch 1 100 100));
                   (window0, pointerdown (touch 2 200 100));
                   (window0, pointermove (touch 1 120 100));
                   (window0, pointerup (touch 2 200 100)) ]).
  assert (Hreach : reachable (run events idle)).
  { exists idle, events. repeat split. }
  destruct (tracking_invariant (run events idle) Hreach) as (Hiff & _ & Hsignal).
  split; [apply Hsignal; discriminate | exact Hiff].
Defined.

(** ** Which event writes which value *)

(** X9.  One event changes a context value only as follows.  The pan offset:
    a move of a tracked pointer with two or more pointers tracked.  The zoom
    offset: such a move, or a wheel event.  The rotation boost: a dragging
    move of the only tracked pointer, or a firing of the decay timer.  The
    tree state: a double click.  The hover progress and the click time: a
    click.  The tracker and the three references: a pointer event. *)
Theorem writers_of_each_value (window : Window) (e : Event) (s : State) :
  let s' := dispatch window e s in
  let multi_move :=
    exists event, e = pointermove event
      /\ Map_has (PointerEvent.pointerId event) (pointers s) = true
      /\ (2 <= Map_size (pointers s))%nat in
  let drag_move :=
    exists event, e = pointermove event
      /\ Map_has (PointerEvent.pointerId event) (pointers s) = true
      /\ Map_size (pointers s) = 1%nat /\ isDragging event = true in
  (panOffset s' <> panOffset s -> multi_move)
  /\ (zoomOffset s' <> zoomOffset s -> multi_move \/ exists event, e = wheel event)
  /\ (rotationBoost s' <> rotationBoost s -> drag_move \/ e = interval)
  /\ (state s' <> state s -> e = dblclick)
  /\ (hoverProgress s' <> hoverProgress s \/ clickTrigger s' <> clickTrigger s ->
      exists event now, e = click event now)
  /\ (pointers s' <> pointers s \/ lastCentroid s' <> lastCentroid s
      \/ lastDistance s' <> lastDistance s \/ lastPrimary s' <> lastPrimary s ->
      exists event, e = pointerdown event \/ e = pointermove event
                    \/ e = pointerup event \/ e = pointercancel event).
Proof.
  cbv zeta. destruct e; simpl.
  - (* pointerdown *)
    destruct (handlePointerDown_frame window event s) as (-> & -> & -> & -> & -> & ->).
    repeat split; try unchanged.
    + intros [H|H]; exfalso; now apply H.
    + intros _. exists event. tauto.
  - (* pointermove *)
    assert (Hlast : exists event0 : PointerEvent.t,
               pointermove event = pointerdown event0 \/ pointermove event = pointermove event0
               \/ pointermove event = pointerup event0
               \/ pointermove event = pointercancel event0)
      by (exists event; tauto).
    unfold handlePointerMove.
    destruct (Map_has (PointerEvent.pointerId event) (pointers s)) eqn:Htracked;
      cbn [negb].
    2:{ repeat split; try unchanged; try (intros _; exact Hlast).
        intros [H|H]; exfalso; now apply H. }
    project. rewrite (Map_set_size_has _ _ _ Htracked).
    destruct (Map_size (pointers s) =? 1)%nat eqn:Hone;
      destruct (isDragging event) eqn:Hdrag; cbn [andb].
    1:{ apply Nat.eqb_eq in Hone. project.
        repeat split; try unchanged; try (intros _; exact Hlast).
        - intros _. left. exists event. tauto.
        - intros [H|H]; exfalso; now apply H. }
    all: destruct (2 <=? Map_size (pointers s))%nat eqn:Htwo;
      [apply Nat.leb_le in Htwo|];
      destruct (lastCentroid s); project; destruct (lastDistance s); project;
      repeat split; try unchanged; try (intros _; exact Hlast);
      try (intros _; exists event; tauto);
      try (intros _; left; exists event; tauto);
      try (intros [H|H]; exfalso; now apply H).
  - (* pointerup *)
    assert (Hframe : hoverProgress (handlePointerUp window event s) = hoverProgress s
      /\ clickTrigger (handlePointerUp window event s) = clickTrigger s
      /\ panOffset (handlePointerUp window event s) = panOffset s
      /\ rotationBoost (handlePointerUp window event s) = rotationBoost s
      /\ zoomOffset (handlePointerUp window event s) = zoomOffset s
      /\ state (handlePointerUp window event s) = state s).
    { unfold handlePointerUp, Map_entries. project.
      destruct (Map_delete _ (pointers s)) as [|[k p] rest]; cbn;
        repeat split; reflexivity. }
    destruct Hframe as (-> & -> & -> & -> & -> & ->).
    repeat split; try unchanged.
    + intros [H|H]; exfalso; now apply H.
    + intros _. exists event. tauto.
  - (* pointercancel *)
    assert (Hframe : hoverProgress (handlePointerUp window event s) = hoverProgress s
      /\ clickTrigger (handlePointerUp window event s) = clickTrigger s
      /\ panOffset (handlePointerUp window event s) = panOffset s
      /\ rotationBoost (handlePointerUp window event s) = rotationBoost s
      /\ zoomOffset (handlePointerUp window event s) = zoomOffset s
      /\ state (handlePointerUp window event s) = state s).
    { unfold handlePointerUp, Map_entries. project.
      destruct (Map_delete _ (pointers s)) as [|[k p] rest]; cbn;
        repeat split; reflexivity. }
    destruct Hframe as (-> & -> & -> & -> & -> & ->).
    repeat split; try unchanged.
    + intros [H|H]; exfalso; now apply H.
    + intros _. exists event. tauto.
  - (* wheel *)
    unfold handleWheel. project. repeat split; try unchanged.
    + intros _. right. now exists event.
    + intros [H|H]; exfalso; now apply H.
    + intros [H|[H|[H|H]]]; exfalso; now apply H.
  - (* click *)
    unfold handleClick. project. repeat split; try unchanged.
    + intros _. now exists event, now.
    + intros [H|[H|[H|H]]]; exfalso; now apply H.
  - (* dblclick *)
    unfold handleDoubleClick. project. repeat split; try unchanged.
    + intros [H|H]; exfalso; now apply H.
    + intros [H|[H|[H|H]]]; exfalso; now apply H.
  - (* interval *)
    unfold decay. project. repeat split; try unchanged.
    + intros _. now right.
    + intros [H|H]; exfalso; now apply H.
    + intros [H|[H|[H|H]]]; exfalso; now apply H.
Qed.

(** ** Momentum decay, in the long run *)

Lemma decay_update_abs (v : R) : Rabs (decay_update v) <= Rabs v * 0.94.
Proof.
  unfold decay_update, Math_abs. destruct (Rlt_dec (Rabs v) 0.001).
  - rewrite Rabs_R0. pose proof (Rabs_pos v). lra.
  - rewrite Rabs_mult, (Rabs_pos_eq 0.94) by lra. lra.
Qed.

Lemma decay_update_iter_abs (n : nat) (v : R) :
  Rabs (Nat.iter n decay_update v) <= Rabs v * 0.94 ^ n.
Proof.
  induction n as [|n IH]; [simpl; lra|].
  rewrite Nat.iter_succ.
  pose proof (decay_update_abs (Nat.iter n decay_update v)) as Hstep.
  simpl. nra.
Qed.

Lemma decay_update_iter_from (v : R) (n : nat) :
  0 < v -> 0.001 <= v * 0.94 ^ Nat.pred n ->
  Nat.iter n decay_update v = v * 0.94 ^ n.
Proof.
  intros Hv. induction n as [|n IH]; [simpl; intros _; lra|].
  intros Hn. cbn [Nat.pred] in Hn. rewrite Nat.iter_succ, IH.
  - rewrite decay_update_large; [simpl; lra|].
    unfold Math_abs. pose proof (pow_094_pos n).
    rewrite Rabs_pos_eq by nra. lra.
  - destruct n as [|n]; [simpl in *; lra|].
    cbn [Nat.pred]. pose proof (pow_094_decreasing n). nra.
Qed.

Lemma pow_094_130 : 3 * 0.94 ^ 130 < 0.001.
Proof.
  change 130%nat with (13 * 10)%nat. rewrite pow_mult.
  assert (H13 : 0.94 ^ 13 <= 0.4474) by (simpl; lra).
  assert (H : (0.94 ^ 13) ^ 10 <= 0.4474 ^ 10).
  { apply pow_incr. split; [apply Rlt_le, pow_094_pos | exact H13]. }
  assert (H10 : 3 * 0.4474 ^ 10 < 0.001) by (simpl; lra).
  lra.
Qed.

Lemma pow_094_129 : 0.001 <= 3 * 0.94 ^ 129.
Proof.
  change 129%nat with (13 * 9 + 12)%nat. rewrite pow_add, pow_mult.
  assert (H13 : 0.44736 <= 0.94 ^ 13) by (simpl; lra).
  assert (H12 : 0.4759 <= 0.94 ^ 12) by (simpl; lra).
  assert (H : 0.44736 ^ 9 <= (0.94 ^ 13) ^ 9).
  { apply pow_incr. split; [lra | exact H13]. }
  assert (H9 : 0.0007176 <= 0.44736 ^ 9) by (simpl; lra).
  assert (Hprod : 0.0007176 * 0.4759 <= (0.94 ^ 13) ^ 9 * 0.94 ^ 12).
  { apply Rmult_le_compat; lra. }
  lra.
Qed.

(** X10.  The decay timer never enlarges the rotation boost: after [n]
    firings its magnitude is at most [0.94 ^ n] times what it was.  A boost
    inside [[-3, 3]] is exactly 0 after 131 firings and stays 0; 131 is the
    least such number, since a boost of 3 is [3 * 0.94 ^ 130], not 0, after
    130 firings. *)
Theorem decay_reaches_rest (s : State) :
  -3 <= rotationBoost s <= 3 ->
  (forall n, (131 <= n)%nat -> rotationBoost (Nat.iter n decay s) = 0)
  /\ (forall n, Rabs (rotationBoost (Nat.iter n decay s))
                <= Rabs (rotationBoost s) * 0.94 ^ n)
  /\ (rotationBoost s = 3 ->
      rotationBoost (Nat.iter 130 decay s) = 3 * 0.94 ^ 130
      /\ rotationBoost (Nat.iter 130 decay s) <> 0).
Proof.
  intros Hrange. split; [|split].
  - intros n Hn. rewrite decay_iter_boost.
    replace n with ((n - 131) + 131)%nat by lia.
    rewrite Nat.iter_add.
    change 131%nat with (S 130) at 2. rewrite Nat.iter_succ.
    rewrite (decay_update_small (Nat.iter 130 decay_update (rotationBoost s))).
    + apply decay_update_iter_0.
    + unfold Math_abs.
      pose proof (decay_update_iter_abs 130 (rotationBoost s)) as Habs.
      pose proof pow_094_130 as Hpow. pose proof (pow_094_pos 130) as Hpos.
      assert (Hv : Rabs (rotationBoost s) <= 3) by (apply Rabs_le; lra).
      nra.
  - intros n. rewrite decay_iter_boost. apply decay_update_iter_abs.
  - intros H3. rewrite decay_iter_boost, H3.
    rewrite decay_update_iter_from.
    + split; [reflexivity|]. pose proof (pow_094_pos 130). lra.
    + lra.
    + cbn [Nat.pred]. apply pow_094_129.
Qed.

Lemma decay_reaches_rest_witness :
  rotationBoost (Nat.iter 200 decay (setRotationBoost (fun _ => -2.5) idle)) = 0.
Proof.
  assert (Hrange : -3 <= rotationBoost (setRotationBoost (fun _ => -2.5) idle) <= 3)
    by (cbn; lra).
  destruct (decay_reaches_rest _ Hrange) as [Hrest _].
  apply Hrest. repeat constructor.
Defined.

(** ** Gestures compose *)

Lemma Map_set_set {V : Type} (k : Z) (v1 v2 : V) (m : JsMap V) :
  Map_set k v2 (Map_set k v1 m) = Map_set k v2 m.
Proof.
  induction m as [|[k' v'] rest IH]; simpl.
  - now rewrite Z.eqb_refl.
  - destruct (k' =? k)%Z eqn:E; simpl.
    + now rewrite Z.eqb_refl.
    + now rewrite E, IH.
Qed.

(** X11.  Two drags of the only tracked pointer in a row give the state the
    second drag alone gives, provided the first one does not push the rotation
    boost out of [[-3, 3]]: the boost depends on where the pointer ends, not
    on the steps in between. *)
Theorem drags_compose (window1 window2 : Window) (event1 event2 : PointerEvent.t)
    (prev : Primary.t) (s : State) :
  PointerEvent.pointerId event2 = PointerEvent.pointerId event1 ->
  Map_has (PointerEvent.pointerId event1) (pointers s) = true ->
  Map_size (pointers s) = 1%nat ->
  isDragging event1 = true -> isDragging event2 = true ->
  lastPrimary s = Some prev ->
  -3 <= rotationBoost s - (PointerEvent.clientX event1 - Primary.x prev) * 0.01 <= 3 ->
  handlePointerMove window2 event2 (handlePointerMove window1 event1 s)
  = handlePointerMove window2 event2 s.
Proof.
  intros Hid Htracked Hone Hdrag1 Hdrag2 Hprev Hin.
  assert (Hstep : forall window event s0 prev0,
    Map_has (PointerEvent.pointerId event) (pointers s0) = true ->
    Map_size (pointers s0) = 1%nat -> isDragging event = true ->
    lastPrimary s0 = Some prev0 ->
    handlePointerMove window event s0 =
      mkState
        (Map_set (PointerEvent.pointerId event)
           (Pt.mk (PointerEvent.clientX event) (PointerEvent.clientY event)) (pointers s0))
        (lastCentroid s0) (lastDistance s0)
        (Some (Primary.mk (PointerEvent.pointerId event)
                 (PointerEvent.clientX event) (PointerEvent.clientY event)))
        (Some (normalize window (PointerEvent.clientX event) (PointerEvent.clientY event)))
        (hoverProgress s0) (clickTrigger s0) (panOffset s0)
        (clamp (rotationBoost s0
                - (PointerEvent.clientX event - Primary.x prev0) * 0.01) (-3) 3)
        (zoomOffset s0) (state s0)).
  { intros window event s0 prev0 Ht H1 Hd Hp. unfold handlePointerMove.
    rewrite Ht. cbn [negb]. project.
    rewrite (Map_set_size_has _ _ _ Ht), H1, Hd, Hp. reflexivity. }
  rewrite (Hstep window1 event1 s prev Htracked Hone Hdrag1 Hprev).
  rewrite (Hstep window2 event2 s prev) by (rewrite ?Hid; assumption).
  erewrite Hstep; [| | |exact Hdrag2|reflexivity].
  - project. rewrite Hid, Map_set_set. cbn [Primary.x].
    f_equal. rewrite (clamp_inside _ _ _ Hin). f_equal. lra.
  - project. rewrite Hid. apply Map_has_set.
  - project. now rewrite (Map_set_size_has _ _ _ Htracked).
Qed.

Lemma drags_compose_witness :
  let s := handlePointerDown window0 (mouse 1 300 200 1) idle in
  handlePointerMove window0 (mouse 1 350 200 1)
    (handlePointerMove window0 (mouse 1 280 200 1) s)
  = handlePointerMove window0 (mouse 1 350 200 1) s.
Proof.
  cbv zeta.
  apply (drags_compose window0 window0 (mouse 1 280 200 1) (mouse 1 350 200 1)
           (Primary.mk 1 300 200)); try reflexivity.
  cbn. lra.
Defined.

(** X12.  On a zoom offset inside [[-20, 40]], a wheel event with a positive
    [deltaY] never raises the zoom offset and one with a negative [deltaY]
    never lowers it; two wheel events scrolling the same way give the zoom
    offset one event with the sum of their [deltaY] gives. *)
Theorem wheels_accumulate (window1 window2 : Window) (event1 event2 : WheelEvent.t)
    (s : State) :
  -20 <= zoomOffset s <= 40 ->
  (0 <= WheelEvent.deltaY event1 -> zoomOffset (handleWheel window1 event1 s) <= zoomOffset s)
  /\ (WheelEvent.deltaY event1 <= 0 -> zoomOffset s <= zoomOffset (handleWheel window1 event1 s))
  /\ ((0 <= WheelEvent.deltaY event1 /\ 0 <= WheelEvent.deltaY event2)
      \/ (WheelEvent.deltaY event1 <= 0 /\ WheelEvent.deltaY event2 <= 0) ->
      zoomOffset (handleWheel window2 event2 (handleWheel window1 event1 s))
      = clamp (zoomOffset s
               - (WheelEvent.deltaY event1 + WheelEvent.deltaY event2) * 0.002) (-20) 40).
Proof.
  intros Hz. unfold handleWheel. project.
  split; [intros Hdown; clamp_cases|].
  split; [intros Hup; clamp_cases|].
  intros [[H1 H2]|[H1 H2]]; clamp_cases.
Qed.

Lemma wheels_accumulate_witness :
  zoomOffset (handleWheel window0 (WheelEvent.mk 10 10 (-300))
                (handleWheel window0 (WheelEvent.mk 10 10 (-200)) idle)) = 1.
Proof.
  assert (Hz : -20 <= zoomOffset idle <= 40) by (cbn; lra).
  destruct (wheels_accumulate window0 window0 (WheelEvent.mk 10 10 (-200))
              (WheelEvent.mk 10 10 (-300)) idle Hz) as (_ & _ & Hsum).
  rewrite Hsum by (right; cbn; lra).
  cbn. rewrite clamp_inside; lra.
Defined.

(** ** The multi-pointer branch *)

Lemma fold_sum_from (f : Pt.t -> R) (pts : list Pt.t) (a : R) :
  fold_left (fun sum p => sum + f p) pts a
  = a + fold_left (fun sum p => sum + f p) pts 0.
Proof.
  revert a. induction pts as [|q pts IH]; intros a; simpl; [lra|].
  rewrite (IH (a + f q)), (IH (0 + f q)). lra.
Qed.

Lemma sum_x_cons (p : Pt.t) (pts : list Pt.t) : sum_x (p :: pts) = Pt.x p + sum_x pts.
Proof. unfold sum_x. simpl. rewrite (fold_sum_from Pt.x). lra. Qed.

Lemma sum_y_cons (p : Pt.t) (pts : list Pt.t) : sum_y (p :: pts) = Pt.y p + sum_y pts.
Proof. unfold sum_y. simpl. rewrite (fold_sum_from Pt.y). lra. Qed.

(** Replacing the sample of a tracked pointer shifts the sums by the
    displacement of that pointer. *)
Lemma sums_after_set (k : Z) (p q : Pt.t) (m : JsMap Pt.t) :
  Map_wf m -> In (k, q) m ->
  sum_x (Map_values (Map_set k p m)) = sum_x (Map_values m) + (Pt.x p - Pt.x q)
  /\ sum_y (Map_values (Map_set k p m)) = sum_y (Map_values m) + (Pt.y p - Pt.y q).
Proof.
  unfold Map_wf, Map_values. induction m as [|[k0 v0] rest IH]; simpl; [tauto|].
  intros Hwf Hin. inversion Hwf as [|? ? Hnin Hnd]; subst.
  destruct (k0 =? k)%Z eqn:E.
  - apply Z.eqb_eq in E. subst k0.
    destruct Hin as [Heq|Hin].
    + injection Heq as <-. simpl. rewrite !sum_x_cons, !sum_y_cons. split; lra.
    + exfalso. apply Hnin. change k with (fst (k, q)). now apply in_map.
  - destruct Hin as [Heq|Hin].
    + injection Heq as -> _. rewrite Z.eqb_refl in E. discriminate.
    + simpl. rewrite !sum_x_cons, !sum_y_cons.
      destruct (IH Hnd Hin) as [-> ->]. split; lra.
Qed.

Lemma Map_In_has {V : Type} (k : Z) (v : V) (m : JsMap V) :
  In (k, v) m -> Map_has k m = true.
Proof.
  intros Hin. apply Map_has_In. change k with (fst (k, v)). now apply in_map.
Qed.

(** X13.  With two or more pointers tracked and the centroid reference
    holding the centroid of the tracked samples, a move of one pointer from
    [q] to the event's position shifts the centroid by the displacement
    divided by the number of pointers: the pan offset moves by that shift
    times 0.02 ([y] inverted), clamped, the rotation boost is untouched, and
    the centroid reference holds the centroid of the new samples. *)
Theorem multi_pointer_pan (window : Window) (event : PointerEvent.t) (q : Pt.t) (s : State) :
  Map_wf (pointers s) ->
  In (PointerEvent.pointerId event, q) (pointers s) ->
  (2 <= Map_size (pointers s))%nat ->
  lastCentroid s = Some (centroid_of (Map_values (pointers s))) ->
  let s' := handlePointerMove window event s in
  let n := INR (Map_size (pointers s)) in
  panOffset s' =
    Pt.mk (clamp (Pt.x (panOffset s)
                  + ((PointerEvent.clientX event - Pt.x q) / n) * 0.02) (-15) 15)
          (clamp (Pt.y (panOffset s)
                  - ((PointerEvent.clientY event - Pt.y q) / n) * 0.02) (-10) 10)
  /\ lastCentroid s' = Some (centroid_of (Map_values (pointers s')))
  /\ rotationBoost s' = rotationBoost s.
Proof.
  intros Hwf Hin Htwo Hcentroid. cbv zeta.
  pose proof (Map_In_has _ _ _ Hin) as Htracked.
  rewrite handlePointerMove_pointers, Htracked.
  destruct (sums_after_set (PointerEvent.pointerId event)
              (Pt.mk (PointerEvent.clientX event) (PointerEvent.clientY event))
              q (pointers s) Hwf Hin) as [Hsx Hsy].
  cbn [Pt.x Pt.y] in Hsx, Hsy.
  assert (Hlen : List.length (Map_values (Map_set (PointerEvent.pointerId event)
                   (Pt.mk (PointerEvent.clientX event) (PointerEvent.clientY event))
                   (pointers s))) = Map_size (pointers s)).
  { unfold Map_values. rewrite length_map.
    apply (Map_set_size_has _ _ _ Htracked). }
  assert (Hlen0 : List.length (Map_values (pointers s)) = Map_size (pointers s))
    by (unfold Map_values; apply length_map).
  assert (Hn : INR (Map_size (pointers s)) <> 0).
  { apply not_0_INR. lia. }
  unfold handlePointerMove. rewrite Htracked. cbn [negb]. project.
  rewrite (Map_set_size_has _ _ _ Htracked).
  assert (Hone : (Map_size (pointers s) =? 1)%nat = false) by (apply Nat.eqb_neq; lia).
  assert (Hge : (2 <=? Map_size (pointers s))%nat = true) by (apply Nat.leb_le; lia).
  rewrite Hone, Hge, Hcentroid. cbn [andb]. project.
  destruct (lastDistance s); project.
  - split; [|split; reflexivity].
    unfold centroid_of. cbn [Pt.x Pt.y]. rewrite Hlen, Hlen0, Hsx, Hsy.
    f_equal; f_equal; field; exact Hn.
  - split; [|split; reflexivity].
    unfold centroid_of. cbn [Pt.x Pt.y]. rewrite Hlen, Hlen0, Hsx, Hsy.
    f_equal; f_equal; field; exact Hn.
Qed.

Lemma multi_pointer_pan_witness :
  let s := handlePointerDown window0 (touch 2 200 100)
             (handlePointerDown window0 (touch 1 100 100) idle) in
  panOffset (handlePointerMove window0 (touch 1 130 100) s) = Pt.mk 0.3 0.
Proof.
  cbv zeta.
  set (s := handlePointerDown window0 (touch 2 200 100)
              (handlePointerDown window0 (touch 1 100 100) idle)).
  assert (Hwf : Map_wf (pointers s)).
  { unfold Map_wf. cbn. repeat constructor; simpl; intuition discriminate. }
  assert (Hin : In (PointerEvent.pointerId (touch 1 130 100), Pt.mk 100 100) (pointers s))
    by (cbn; now left).
  assert (Htwo : (2 <= Map_size (pointers s))%nat) by (cbn; lia).
  assert (Hc : lastCentroid s = Some (centroid_of (Map_values (pointers s)))).
  { cbn. unfold centroid_of, sum_x, sum_y. cbn. do 2 f_equal; lra. }
  destruct (multi_pointer_pan window0 (touch 1 130 100) (Pt.mk 100 100) s
              Hwf Hin Htwo Hc) as [Hpan _].
  rewrite Hpan. cbn. rewrite !clamp_inside by lra. f_equal; lra.
Defined.

Lemma Map_delete_same_size {V : Type} (k : Z) (m : JsMap V) :
  Map_size (Map_delete k m) = Map_size m -> Map_delete k m = m.
Proof.
  intros Hsize. apply Map_delete_absent.
  destruct (Map_has k m) eqn:Hhas; [|reflexivity].
  exfalso. revert Hsize Hhas. unfold Map_size.
  induction m as [|[k' v'] rest IH]; simpl; [discriminate|].
  destruct (k' =? k)%Z; simpl; [lia|].
  intros Hs Hh. apply IH; [lia | exact Hh].
Qed.

(** One event keeps the references current, when two pointers are tracked
    afterwards and no more than two were before. *)
Lemma dispatch_refs_current window e s :
  (Map_size (pointers s) = 2%nat -> refs_current s) ->
  (Map_size (pointers s) <= 2)%nat ->
  Map_size (pointers (dispatch window e s)) = 2%nat ->
  refs_current (dispatch window e s).
Proof.
  intros Hcur Hle. unfold refs_current. destruct e; simpl.
  - (* pointerdown *)
    rewrite handlePointerDown_pointers. intros Htwo.
    unfold handlePointerDown. project. rewrite Htwo. cbn [Nat.eqb]. project.
    revert Htwo. unfold Map_size, Map_values.
    destruct (Map_set _ _ (pointers s)) as [|[k0 p0] [|[k1 p1] [|? ?]]];
      try discriminate.
    intros _. unfold centroid_of, distance_of, sum_x, sum_y, item. cbn.
    split; [do 2 f_equal; lra | reflexivity].
  - (* pointermove *)
    rewrite handlePointerMove_pointers. unfold handlePointerMove.
    destruct (Map_has (PointerEvent.pointerId event) (pointers s)) eqn:Htracked;
      cbn [negb]; [|exact Hcur].
    intros Htwo. project. rewrite Htwo. cbn [Nat.eqb Nat.leb andb].
    destruct (lastCentroid s); project; destruct (lastDistance s); project;
      split; reflexivity.
  - (* pointerup *)
    rewrite handlePointerUp_pointers. intros Htwo.
    pose proof (Map_delete_size_le (PointerEvent.pointerId event) (pointers s)) as Hdel.
    assert (Hsame : Map_delete (PointerEvent.pointerId event) (pointers s) = pointers s)
      by (apply Map_delete_same_size; lia).
    unfold handlePointerUp, Map_entries. project. rewrite Hsame in *.
    destruct (Hcur Htwo) as [Hc Hd].
    destruct (pointers s) as [|[k p] rest]; [discriminate|]. cbn. now split.
  - (* pointercancel *)
    rewrite handlePointerUp_pointers. intros Htwo.
    pose proof (Map_delete_size_le (PointerEvent.pointerId event) (pointers s)) as Hdel.
    assert (Hsame : Map_delete (PointerEvent.pointerId event) (pointers s) = pointers s)
      by (apply Map_delete_same_size; lia).
    unfold handlePointerUp, Map_entries. project. rewrite Hsame in *.
    destruct (Hcur Htwo) as [Hc Hd].
    destruct (pointers s) as [|[k p] rest]; [discriminate|]. cbn. now split.
  - unfold handleWheel. project. exact Hcur.
  - unfold handleClick. project. exact Hcur.
  - unfold handleDoubleClick. project. exact Hcur.
  - unfold decay. project. exact Hcur.
Qed.

(** X14.  In a gesture that starts with no pointer tracked and never tracks
    more than two, whenever two pointers are tracked the centroid reference
    is the midpoint of the two tracked samples and the distance reference is
    their distance: the next move is measured against the samples as they
    are, never against older ones. *)
Theorem two_pointer_refs_current (events : list (Window * Event)) (s : State) :
  pointers s = [] ->
  stays_within 2 events s ->
  Map_size (pointers (run events s)) = 2%nat ->
  refs_current (run events s).
Proof.
  intros Hempty.
  assert (Hcur : Map_size (pointers s) = 2%nat -> refs_current s)
    by (rewrite Hempty; discriminate).
  clear Hempty. revert s Hcur. unfold run.
  induction events as [|[window e] events IH]; intros s Hcur Hwithin; simpl.
  - exact Hcur.
  - destruct Hwithin as [Hle Hrest]. apply IH; [|exact Hrest].
    intros Htwo. now apply dispatch_refs_current.
Qed.

Lemma two_pointer_refs_current_witness :
  refs_current
    (run [ (window0, pointerdown (touch 1 100 100));
           (window0, pointerdown (touch 2 200 100));
           (window0, pointerup (touch 1 100 100));
           (window0, pointermove (touch 2 210 90));
           (window0, pointerdown (touch 3 50 60)) ] idle).
Proof.
  apply two_pointer_refs_current.
  - reflexivity.
  - cbn. repeat split; lia.
  - reflexivity.
Defined.

(** X15.  With three or more pointers tracked, a move of a pointer that is
    not one of the first two in iteration order has no say in the zoom: the
    distance reference becomes the distance of the first two samples, and
    the zoom offset is the one any other position of that pointer gives.  If
    the distance reference already held that distance and the zoom offset is
    inside [[-20, 40]], the zoom offset does not change. *)
Theorem third_pointer_does_not_zoom (window : Window) (event : PointerEvent.t)
    (a b : Z) (pa pb : Pt.t) (rest : JsMap Pt.t) (s : State) :
  pointers s = (a, pa) :: (b, pb) :: rest ->
  PointerEvent.pointerId event <> a ->
  PointerEvent.pointerId event <> b ->
  Map_has (PointerEvent.pointerId event) rest = true ->
  let s' := handlePointerMove window event s in
  let dist := Math_hypot (Pt.x pa - Pt.x pb) (Pt.y pa - Pt.y pb) in
  lastDistance s' = Some dist
  /\ zoomOffset s' =
     match lastDistance s with
     | Some last => clamp (zoomOffset s - (dist - last) * 0.01) (-20) 40
     | None => zoomOffset s
     end
  /\ (lastDistance s = Some dist -> -20 <= zoomOffset s <= 40 ->
      zoomOffset s' = zoomOffset s).
Proof.
  intros Hps Ha Hb Hrest. cbv zeta.
  assert (Ea : (a =? PointerEvent.pointerId event)%Z = false)
    by (apply Z.eqb_neq; congruence).
  assert (Eb : (b =? PointerEvent.pointerId event)%Z = false)
    by (apply Z.eqb_neq; congruence).
  assert (Hresult :
    lastDistance (handlePointerMove window event s)
      = Some (Math_hypot (Pt.x pa - Pt.x pb) (Pt.y pa - Pt.y pb))
    /\ zoomOffset (handlePointerMove window event s) =
       match lastDistance s with
       | Some last =>
           clamp (zoomOffset s
                  - (Math_hypot (Pt.x pa - Pt.x pb) (Pt.y pa - Pt.y pb) - last) * 0.01)
             (-20) 40
       | None => zoomOffset s
       end).
  { unfold handlePointerMove. rewrite Hps. cbn [Map_has Map_set].
    rewrite Ea, Eb, Hrest. cbn [negb]. project.
    cbn [Map_size List.length Nat.eqb Nat.leb andb Map_values map snd item nth].
    destruct (lastCentroid s); project; destruct (lastDistance s); project;
      split; reflexivity. }
  destruct Hresult as [Hdist Hzoom].
  split; [exact Hdist|]. split; [exact Hzoom|].
  intros Hlast Hin. rewrite Hzoom, Hlast.
  rewrite clamp_inside; lra.
Qed.

Lemma third_pointer_does_not_zoom_witness :
  let s := run [ (window0, pointerdown (touch 1 100 100));
                 (window0, pointerdown (touch 2 200 100));
                 (window0, pointerdown (touch 3 150 300)) ] idle in
  zoomOffset (handlePointerMove window0 (touch 3 900 20) s) = zoomOffset s.
Proof.
  cbv zeta.
  set (s := run [ (window0, pointerdown (touch 1 100 100));
                  (window0, pointerdown (touch 2 200 100));
                  (window0, pointerdown (touch 3 150 300)) ] idle).
  assert (Ha : PointerEvent.pointerId (touch 3 900 20) <> 1%Z) by discriminate.
  assert (Hb : PointerEvent.pointerId (touch 3 900 20) <> 2%Z) by discriminate.
  destruct (third_pointer_does_not_zoom window0 (touch 3 900 20) 1 2
              (Pt.mk 100 100) (Pt.mk 200 100) [(3%Z, Pt.mk 150 300)] s
              eq_refl Ha Hb eq_refl) as (_ & _ & Hkeep).
  apply Hkeep.
  - reflexivity.
  - cbn. lra.
Defined.

(** ** What gestures do not depend on *)

Lemma same_gesture_refl (s : State) : same_gesture s s.
Proof. unfold same_gesture. repeat split; reflexivity. Qed.

Lemma dispatch_same_gesture window1 window2 e s1 s2 :
  same_gesture s1 s2 ->
  same_gesture (dispatch window1 e s1) (dispatch window2 e s2).
Proof.
  destruct s1 as [ps1 lc1 ld1 lp1 p1 hp1 ct1 pan1 rb1 z1 st1].
  destruct s2 as [ps2 lc2 ld2 lp2 p2 hp2 ct2 pan2 rb2 z2 st2].
  unfold same_gesture. project.
  intros (-> & -> & -> & -> & -> & -> & ->).
  destruct e; simpl.
  - unfold handlePointerDown. project. split_branches; project;
      repeat split; reflexivity.
  - unfold handlePointerMove. project.
    destruct (Map_has _ ps2); cbn [negb]; [|repeat split; reflexivity].
    destruct (_ && _); [project; repeat split; reflexivity|].
    destruct (2 <=? _)%nat; [|project; repeat split; reflexivity].
    destruct lc2; project; destruct ld2; project; repeat split; reflexivity.
  - unfold handlePointerUp, Map_entries. project. split_branches; project;
      repeat split; reflexivity.
  - unfold handlePointerUp, Map_entries. project. split_branches; project;
      repeat split; reflexivity.
  - unfold handleWheel. project. repeat split; reflexivity.
  - unfold handleClick. project. repeat split; reflexivity.
  - unfold handleDoubleClick. project. repeat split; reflexivity.
  - unfold decay. project. repeat split; reflexivity.
Qed.

Lemma click_same_gesture window e s :
  is_click e = true -> same_gesture s (dispatch window e s).
Proof.
  destruct e; simpl; try discriminate; intros _.
  - unfold handleClick, same_gesture. project. repeat split; reflexivity.
  - unfold handleDoubleClick, same_gesture. project. repeat split; reflexivity.
Qed.

Lemma same_gesture_trans (s1 s2 s3 : State) :
  same_gesture s1 s2 -> same_gesture s2 s3 -> same_gesture s1 s3.
Proof.
  unfold same_gesture.
  intros (-> & -> & -> & -> & -> & -> & ->) (-> & -> & -> & -> & -> & -> & ->).
  repeat split; reflexivity.
Qed.

(** X16.  The tracker, the three references and the accumulators after a
    sequence of events depend on the events and on the tracker, references
    and accumulators before it, and on nothing else: not on the window size
    at any event, nor on the pointer signal, hover progress, click time or
    tree state. *)
Theorem gestures_ignore_window (events1 events2 : list (Window * Event)) (s1 s2 : State) :
  map snd events1 = map snd events2 ->
  same_gesture s1 s2 ->
  same_gesture (run events1 s1) (run events2 s2).
Proof.
  unfold run. revert events2 s1 s2.
  induction events1 as [|[window1 e1] events1 IH];
    intros [|[window2 e2] events2] s1 s2 Hevents Hsame;
    try discriminate; simpl.
  - exact Hsame.
  - simpl in Hevents. injection Hevents as -> Hrest.
    apply IH; [exact Hrest|]. now apply dispatch_same_gesture.
Qed.

Lemma gestures_ignore_window_witness :
  same_gesture
    (run [ (window0, pointerdown (touch 1 100 100));
           (window0, pointermove (touch 1 160 100)) ] idle)
    (run [ (mkWindow 1920 1080, pointerdown (touch 1 100 100));
           (mkWindow 320 200, pointermove (touch 1 160 100)) ]
       (setState (fun _ => CHAOS) (setHoverProgress 0.7 idle))).
Proof.
  apply gestures_ignore_window.
  - reflexivity.
  - unfold same_gesture. repeat split; reflexivity.
Defined.

(** X17.  Clicks and double clicks never interfere with a gesture: removing
    them from a sequence of events leaves the tracker, the three references
    and the accumulators of the final state as they are. *)
Theorem clicks_do_not_disturb (events : list (Window * Event)) (s : State) :
  same_gesture
    (run (filter (fun we => negb (is_click (snd we))) events) s)
    (run events s).
Proof.
  assert (H : forall s1 s2, same_gesture s1 s2 ->
    same_gesture
      (run (filter (fun we => negb (is_click (snd we))) events) s1)
      (run events s2)).
  { unfold run. induction events as [|[window e] events IH]; intros s1 s2 Hsame; simpl.
    - exact Hsame.
    - destruct (is_click e) eqn:Hclick; simpl.
      + apply IH. eapply same_gesture_trans; [exact Hsame|].
        now apply click_same_gesture.
      + apply IH. now apply dispatch_same_gesture. }
  apply H, same_gesture_refl.
Qed.
